(** * The polyfill build pipeline of [tasks/buildsources.js]

    A shallow embedding of the build script that discovers feature
    directories, loads and validates their configuration, minifies their
    sources, validates the dependency graph and writes the compiled tree.

    Conventions of the embedding:
    - a JavaScript string is the list of its UTF-16 code units;
    - a thrown value or a rejected promise is the [Err] case of [result];
    - the file system below the source root is a tree of entries, and a
      path below the root is the list of its components; [path.join]
      appends a component, resolving [.] and [..] where the component is a
      computed name, and [path.relative] renders the components with the
      separator of the platform;
    - the collaborators the script requires (TOML, uglify-js, vm, toposort,
      spdx-licenses, the user-agent normaliser, the operating system's
      answer to a write) are the fields of [Externals];
    - the promises of a [Promise.all] are run in list order and the first
      rejection in that order is the one reported; of chains joined by a
      [Promise.all], every first link is started before any later link. *)

From Stdlib Require Import ZArith NArith String Ascii.
From stdpp Require Import gmap list.

Local Open Scope N_scope.

(** ** JavaScript strings *)

Module JS.

Abbreviation jsstring := (list N).

Fixpoint lit (s : string) : jsstring :=
  match s with
  | EmptyString => []
  | String a s' => N_of_ascii a :: lit s'
  end.
#[global] Arguments lit : simpl never.

Definition LF : N := 10.
Definition DOT : N := 46.
Definition SLASH : N := 47.
Definition BACKSLASH : N := 92.
Definition UNDERSCORE : N := 95.

(** The class [\s] of regular expressions. *)
Definition is_whitespace (c : N) : bool :=
  bool_decide (c ∈ [9; 10; 11; 12; 13; 32; 160; 5760; 8232; 8233; 8239; 8287; 12288; 65279])
  || ((8192 <=? c) && (c <=? 8202)).

(** The line terminators: the characters [.] refuses and around which
    [^] and [$] match under the [m] flag. *)
Definition is_line_terminator (c : N) : bool :=
  bool_decide (c ∈ [10; 13; 8232; 8233]).

Fixpoint starts_with (pat s : jsstring) : bool :=
  match pat, s with
  | [], _ => true
  | _ :: _, [] => false
  | a :: pat', b :: s' => (a =? b) && starts_with pat' s'
  end.

(** [s.indexOf(pat)]: the first position at which [pat] occurs, or -1. *)
Fixpoint indexOf_from (i : Z) (pat s : jsstring) : Z :=
  if starts_with pat s then i
  else match s with
       | [] => (-1)%Z
       | _ :: s' => indexOf_from (i + 1)%Z pat s'
       end.

Definition indexOf (s pat : jsstring) : Z := indexOf_from 0%Z pat s.

(** [s.startsWith(pat)] *)
Definition startsWith (s pat : jsstring) : bool := starts_with pat s.
#[global] Arguments startsWith : simpl never.
#[global] Arguments indexOf : simpl never.

(** [s.replace(/(\/|\\)/g, '.')] *)
Fixpoint replace_separators (s : jsstring) : jsstring :=
  match s with
  | [] => []
  | c :: s' =>
      if (c =? SLASH) || (c =? BACKSLASH) then DOT :: replace_separators s'
      else c :: replace_separators s'
  end.

(** [s.replace(/\s*$/, '')]: the leftmost match is the first position from
    which only white space follows. *)
Fixpoint strip_trailing_whitespace (s : jsstring) : jsstring :=
  match s with
  | [] => []
  | c :: s' =>
      if forallb is_whitespace s then [] else c :: strip_trailing_whitespace s'
  end.

Fixpoint strip_prefix (pat s : jsstring) : option jsstring :=
  match pat, s with
  | [], _ => Some s
  | _ :: _, [] => None
  | a :: pat', b :: s' => if a =? b then strip_prefix pat' s' else None
  end.

Fixpoint line_run (s : jsstring) : nat :=
  match s with
  | [] => 0
  | c :: s' => if is_line_terminator c then 0 else S (line_run s')
  end.

(** Length of the match of [\/\/#\ssourceMappingURL(.+)$] at the head of
    [s], if there is one: the greedy [.+] takes the rest of the line, after
    which [$] holds. *)
Definition source_map_match (s : jsstring) : option nat :=
  match strip_prefix (lit "//#") s with
  | Some (c :: rest) =>
      if is_whitespace c then
        match strip_prefix (lit "sourceMappingURL") rest with
        | Some tail =>
            match line_run tail with
            | O => None
            | S n => Some (3 + 1 + 16 + S n)%nat
            end
        | None => None
        end
      else None
  | _ => None
  end.

(** [s.replace(/^\/\/#\ssourceMappingURL(.+)$/gm, '')]. [bol] tells whether
    [^] holds here; [skip] counts the characters of a match still to drop. *)
Fixpoint remove_source_map_lines (bol : bool) (skip : nat) (s : jsstring) : jsstring :=
  match s with
  | [] => []
  | c :: s' =>
      match skip with
      | S k => remove_source_map_lines (is_line_terminator c) k s'
      | O =>
          match (if bol then source_map_match s else None) with
          | Some (S k) => remove_source_map_lines (is_line_terminator c) k s'
          | _ => c :: remove_source_map_lines (is_line_terminator c) 0 s'
          end
      end
  end.

(** [needle] occurs in [s]. *)
Definition occurs_in (needle s : jsstring) : Prop :=
  ∃ before after, s = before ++ needle ++ after.

(** The number of bytes of the UTF-8 encoding of a string, as
    [Buffer.byteLength] counts them and as [fs.writeFile] writes them: a
    surrogate pair takes four bytes, a lone surrogate is replaced by U+FFFD. *)
Fixpoint utf8_byte_length (s : jsstring) : nat :=
  match s with
  | [] => O
  | c :: s' =>
      if c <? 0x80 then S (utf8_byte_length s')
      else if c <? 0x800 then S (S (utf8_byte_length s'))
      else if (0xD800 <=? c) && (c <=? 0xDBFF) then
        match s' with
        | d :: s'' =>
            if (0xDC00 <=? d) && (d <=? 0xDFFF)
            then S (S (S (S (utf8_byte_length s''))))
            else S (S (S (utf8_byte_length s')))
        | [] => 3%nat
        end
      else S (S (S (utf8_byte_length s')))
  end.

End JS.
Import JS.

(** ** Thrown values and rejections *)

Inductive error :=
  | Wrapped (name : option jsstring) (message : jsstring) (cause : error)
    (* throw { name, message, error } *)
  | JsError (message : jsstring)          (* throw new Error(message) *)
  | TypeError                             (* raised by the runtime *)
  | Rejected (reason : jsstring)          (* Promise.reject(reason) *)
  | FsError (path : list jsstring)        (* a failed file-system call *)
  | Foreign (description : jsstring).     (* raised inside a collaborator *)

Inductive result (A : Type) :=
  | Ok (a : A)
  | Err (e : error).
Arguments Ok {A} a.
Arguments Err {A} e.

#[global] Instance result_ret : MRet result := λ A a, Ok a.
#[global] Instance result_bind : MBind result :=
  λ A B f m, match m with Ok a => f a | Err e => Err e end.

(** [Promise.all] over a list of chains, in list order. *)
Fixpoint promise_all {A B} (f : A → result B) (l : list A) : result (list B) :=
  match l with
  | [] => Ok []
  | a :: l' =>
      match f a, promise_all f l' with
      | Ok b, Ok bs => Ok (b :: bs)
      | Err e, _ => Err e
      | Ok _, Err e => Err e
      end
  end.

(** ** Data model *)

Record BuildOptions := { minify : option bool }.
Record TestOptions := { ci : option bool }.

(** The object [TOML.parse] returns, with the keys the script reads, and
    the keys the script adds. A key that is absent is [None]. *)
Record Config := {
  config_aliases : option (list jsstring);
  config_dependencies : option (list jsstring);
  license : option jsstring;
  licence : option jsstring;
  browsers : option (list (jsstring * jsstring));
  build : option BuildOptions;
  test : option TestOptions;
  detectSource : option jsstring;
  baseDir : option jsstring;
  hasTests : option bool;
  isTestable : option bool;
  isPublic : option bool;
  size : option nat
}.

Definition empty_config : Config :=
  {| config_aliases := None; config_dependencies := None; license := None;
     licence := None; browsers := None; build := None; test := None;
     detectSource := None; baseDir := None; hasTests := None;
     isTestable := None; isPublic := None; size := None |}.

Record Sources := { src_raw : jsstring; src_min : jsstring }.

Record Polyfill := {
  path_absolute : list jsstring;
  path_relative : jsstring;
  name : jsstring;
  config : Config;
  sources : option Sources
}.

(** ** The file system below the source root *)

#[warnings="-register-all"]
Inductive entry :=
  | File (item : jsstring) (contents : option jsstring)
    (* anything [lstat] does not report as a directory; [None] when it
       cannot be read *)
  | Dir (item : jsstring) (children : list entry).

Definition entry_name (e : entry) : jsstring :=
  match e with File n _ | Dir n _ => n end.

Fixpoint find_entry (n : jsstring) (items : list entry) : option entry :=
  match items with
  | [] => None
  | e :: rest => if bool_decide (entry_name e = n) then Some e else find_entry n rest
  end.

Fixpoint resolve (items : list entry) (p : list jsstring) : option entry :=
  match p with
  | [] => None
  | [n] => find_entry n items
  | n :: p' =>
      match find_entry n items with
      | Some (Dir _ children) => resolve children p'
      | _ => None
      end
  end.

(** [fs.existsSync] *)
Definition existsSync (fs : list entry) (p : list jsstring) : bool :=
  match resolve fs p with Some _ => true | None => false end.

(** [fs.readFile] and [fs.readFileSync] *)
Definition readFile (fs : list entry) (p : list jsstring) : result jsstring :=
  match resolve fs p with
  | Some (File _ (Some data)) => Ok data
  | _ => Err (FsError p)
  end.

(** ** Collaborators *)

Inductive Platform := Posix | Win32.

Definition path_sep (pl : Platform) : N :=
  match pl with Posix => SLASH | Win32 => BACKSLASH end.

Record LicenseInfo := { license_name : jsstring; OSIApproved : bool }.

Inductive output :=
  | MakeDirectory (p : list jsstring)
  | WriteAliases (p : list jsstring) (index : gmap jsstring (list jsstring))
  | WriteMeta (p : list jsstring) (c : Config)
  | WriteSource (p : list jsstring) (text : jsstring).

Record Externals := {
  platform : Platform;
  source_root : jsstring;                     (* path.join(__dirname, '../polyfills') *)
  toml_parse : jsstring → result Config;      (* TOML.parse *)
  toml_stringify : list (jsstring * jsstring) → jsstring;  (* TOML.stringify *)
  baselines : list jsstring;                  (* the sorted keys of UA.getBaselines() *)
  vm_script : jsstring → result ();          (* new vm.Script(code) *)
  uglify_polyfill : jsstring → result jsstring;
  uglify_detect : jsstring → result jsstring;
  spdx : jsstring → option LicenseInfo;       (* spdxLicenses.spdx *)
  toposort : list (jsstring * jsstring) → jsstring + list jsstring;
    (* [inl s]: it threw an error whose string form is [s] *)
  io_ok : output → bool                       (* does the operating system carry it out *)
}.

(** ** Sequencing *)

(** A [for ... of] loop whose body may throw or return a rejection. *)
Fixpoint for_each {A} (body : A → result ()) (l : list A) : result () :=
  match l with
  | [] => Ok ()
  | a :: l' => body a ;; for_each body l'
  end.

(** A loop that threads a value through its iterations. *)
Fixpoint fold_each {A S} (body : S → A → result S) (s : S) (l : list A) : result S :=
  match l with
  | [] => Ok s
  | a :: l' => s' ← body s a; fold_each body s' l'
  end.

(** Output operations: the operations started so far, and the outcome. *)
Definition io (A : Type) : Type := list output * result A.

Definition io_lift {A} (r : result A) : io A := ([], r).

(** [m.then(k)] *)
Definition io_then {A B} (m : io A) (k : A → io B) : io B :=
  match m with
  | (t, Ok a) => let '(t', r) := k a in (t ++ t', r)
  | (t, Err e) => (t, Err e)
  end.

(** The rejection a [Promise.all] reports: the first in list order. *)
Fixpoint first_rejection (l : list (result ())) : result () :=
  match l with
  | [] => Ok ()
  | Ok _ :: l' => first_rejection l'
  | Err e :: _ => Err e
  end.

(** ** Polyfill *)

(** [path.relative(source, absolute)] *)
Fixpoint relative (pl : Platform) (absolute : list jsstring) : jsstring :=
  match absolute with
  | [] => []
  | [c] => c
  | c :: p => c ++ path_sep pl :: relative pl p
  end.

(** [new Polyfill(absolute, relative)] *)
Definition new_Polyfill (absolute : list jsstring) (relative : jsstring) : Polyfill :=
  {| path_absolute := absolute;
     path_relative := relative;
     name := replace_separators relative;
     config := empty_config;
     sources := None |}.

Definition aliases (p : Polyfill) : list jsstring :=
  lit "all" :: default [] (config_aliases (config p)).

Definition dependencies (p : Polyfill) : list jsstring :=
  default [] (config_dependencies (config p)).

Definition configPath (p : Polyfill) : list jsstring := path_absolute p ++ [lit "config.toml"].
Definition detectPath (p : Polyfill) : list jsstring := path_absolute p ++ [lit "detect.js"].
Definition sourcePath (p : Polyfill) : list jsstring := path_absolute p ++ [lit "polyfill.js"].

Definition set_config (c : Config) (p : Polyfill) : Polyfill :=
  {| path_absolute := path_absolute p; path_relative := path_relative p;
     name := name p; config := c; sources := sources p |}.

Definition set_sources (s : Sources) (p : Polyfill) : Polyfill :=
  {| path_absolute := path_absolute p; path_relative := path_relative p;
     name := name p; config := config p; sources := Some s |}.

Definition set_detectSource (v : jsstring) (c : Config) : Config :=
  {| config_aliases := config_aliases c; config_dependencies := config_dependencies c;
     license := license c; licence := licence c; browsers := browsers c;
     build := build c; test := test c; detectSource := Some v;
     baseDir := baseDir c; hasTests := hasTests c; isTestable := isTestable c;
     isPublic := isPublic c; size := size c |}.

Definition set_baseDir (v : jsstring) (c : Config) : Config :=
  {| config_aliases := config_aliases c; config_dependencies := config_dependencies c;
     license := license c; licence := licence c; browsers := browsers c;
     build := build c; test := test c; detectSource := detectSource c;
     baseDir := Some v; hasTests := hasTests c; isTestable := isTestable c;
     isPublic := isPublic c; size := size c |}.

Definition set_flags (tests testable public : bool) (c : Config) : Config :=
  {| config_aliases := config_aliases c; config_dependencies := config_dependencies c;
     license := license c; licence := licence c; browsers := browsers c;
     build := build c; test := test c; detectSource := detectSource c;
     baseDir := baseDir c; hasTests := Some tests; isTestable := Some testable;
     isPublic := Some public; size := size c |}.

Definition set_size (n : nat) (c : Config) : Config :=
  {| config_aliases := config_aliases c; config_dependencies := config_dependencies c;
     license := license c; licence := licence c; browsers := browsers c;
     build := build c; test := test c; detectSource := detectSource c;
     baseDir := baseDir c; hasTests := hasTests c; isTestable := isTestable c;
     isPublic := isPublic c; size := Some n |}.

(** [this.config.build && this.config.build.minify === false] *)
Definition minify_disabled (c : Config) : bool :=
  match build c with
  | Some b => bool_decide (minify b = Some false)
  | None => false
  end.

(** ['test' in c && 'ci' in c.test && c.test.ci === false] *)
Definition ci_disabled (c : Config) : bool :=
  match test c with
  | Some t => bool_decide (ci t = Some false)
  | None => false
  end.

(** The object [browserSupport] built for the diagnostic. *)
Definition browserSupport (supported : list jsstring) : list (jsstring * jsstring) :=
  map (λ browser, (browser, lit "*")) supported.

Fixpoint table_get (k : jsstring) (t : list (jsstring * jsstring)) : option jsstring :=
  match t with
  | [] => None
  | (k', v) :: t' => if bool_decide (k' = k) then Some v else table_get k t'
  end.

Section Pipeline.

Context (ext : Externals) (fs : list entry).

(** A path as the script prints it. *)
Definition render (p : list jsstring) : jsstring :=
  source_root ext ++ (p ≫= λ c, path_sep (platform ext) :: c).

Definition hasConfigFile (p : Polyfill) : bool := existsSync fs (configPath p).

Definition validateSource (code label : jsstring) : result () :=
  match vm_script ext code with
  | Ok _ => Ok ()
  | Err e =>
      Err (Wrapped (Some (lit "Parse error"))
             (lit "Error parsing source code for " ++ label) e)
  end.

Definition minifyPolyfill (p : Polyfill) (source : jsstring) : result Sources :=
  let raw := LF :: lit "// " ++ name p ++ LF :: source in
  if minify_disabled (config p) then
    Ok {| src_raw := raw ++ [LF]; src_min := source ++ [LF] |}
  else
    validateSource source (name p ++ lit " from " ++ render (sourcePath p)) ;;
    minified ← uglify_polyfill ext source;
    Ok {| src_raw := raw; src_min := minified |}.

Definition minifyDetect (p : Polyfill) (source : jsstring) : result Sources :=
  let raw := LF :: lit "// " ++ name p ++ LF :: source in
  if minify_disabled (config p) then
    Ok {| src_raw := raw ++ [LF]; src_min := source ++ [LF] |}
  else
    validateSource source (name p ++ lit " from " ++ render (sourcePath p)) ;;
    minified ← uglify_detect ext source;
    Ok {| src_raw := raw; src_min := minified |}.

Definition removeSourceMaps (source : Sources) : Sources :=
  {| src_raw := remove_source_map_lines true 0 (src_raw source);
     src_min := remove_source_map_lines true 0 (src_min source) |}.

(** [supportedBrowsers.every(browser => this.config.browsers[browser] === "*")];
    reading a key of a missing table is a [TypeError]. *)
Definition targets_all_browsers (c : Config) : result bool :=
  match baselines ext with
  | [] => Ok true
  | _ :: _ =>
      match browsers c with
      | None => Err TypeError
      | Some table =>
          Ok (forallb (λ browser, bool_decide (table_get browser table = Some (lit "*")))
                (baselines ext))
      end
  end.

Definition check_internal (p : Polyfill) (c : Config) : result () :=
  if startsWith (path_relative p) [UNDERSCORE] then
    ok ← targets_all_browsers c;
    if ok : bool then Ok ()
    else Err (JsError (lit "Internal polyfill called " ++ name p ++
                lit " is not targeting all supported browsers correctly. It should be: " ++
                LF :: toml_stringify ext (browserSupport (baselines ext))))
  else Ok ().

Definition load_detect (p : Polyfill) (c : Config) : result Config :=
  if existsSync fs (detectPath p) then
    text ← readFile fs (detectPath p);
    detect ← minifyDetect (set_config c p) (strip_trailing_whitespace text);
    validateSource (lit "if (" ++ src_min detect ++ lit ") true;")
      (name p ++ lit " feature detect from " ++ render (detectPath p)) ;;
    Ok (set_detectSource (src_min detect) c)
  else Ok c.

Definition loadConfig (p : Polyfill) : result Polyfill :=
  match readFile fs (configPath p) with
  | Err e =>
      Err (Wrapped (Some (lit "Invalid config"))
             (lit "Unable to read config from " ++ render (configPath p)) e)
  | Ok data =>
      c ← toml_parse ext data;
      check_internal p c ;;
      let c := set_baseDir (path_relative p) (set_detectSource [] c) in
      match licence c with
      | Some _ =>
          Err (JsError (lit "Incorrect spelling of license property in " ++ name p))
      | None =>
          let c := set_flags (existsSync fs (path_absolute p ++ [lit "tests.js"]))
                     (negb (ci_disabled c))
                     (bool_decide (indexOf (name p) [UNDERSCORE] ≠ 0%Z)) c in
          c ← load_detect p c;
          Ok (set_config c p)
      end
  end.

Definition checkLicense (p : Polyfill) : result () :=
  match license (config p) with
  | Some id =>
      match spdx ext id with
      | Some info =>
          if bool_decide (id ≠ lit "CC0-1.0") && bool_decide (id ≠ lit "WTFPL")
             && negb (OSIApproved info)
          then Err (JsError (lit "The license " ++ id ++ lit " (" ++ license_name info ++
                      lit ") is not OSI approved."))
          else Ok ()
      | None =>
          Err (JsError (lit "The license " ++ id ++
                 lit " is not on the SPDX list of licenses ( https://spdx.org/licenses/ )."))
      end
  | None => Ok ()
  end.

Definition loadSources (p : Polyfill) : result Polyfill :=
  let minified :=
    match readFile fs (sourcePath p) with
    | Err e =>
        Err (Wrapped (Some (lit "Invalid source"))
               (lit "Unable to read source from " ++ render (sourcePath p)) e)
    | Ok raw => minifyPolyfill p raw
    end in
  match minified with
  | Err e => Err (Wrapped None (lit "Error minifying " ++ name p) e)
  | Ok s => Ok (set_sources (removeSourceMaps s) p)
  end.

Definition updateConfig (p : Polyfill) : result Polyfill :=
  match sources p with
  | Some s => Ok (set_config (set_size (length (src_min s)) (config p)) p)
  | None => Err TypeError
  end.

(** The chain the orchestrator runs for one feature. *)
Definition build_polyfill (p : Polyfill) : result Polyfill :=
  p ← loadConfig p;
  checkLicense p ;;
  p ← loadSources p;
  updateConfig p.

End Pipeline.

(** ** Feature discovery *)

(** One iteration of the loop of [flattenPolyfillDirectories] over the
    items of [directory]: what the item contributes to [results]. *)
Fixpoint flatten_item (directory : list jsstring) (e : entry) : list (list jsstring) :=
  match e with
  | File _ _ => []
  | Dir item children =>
      let joined := directory ++ [item] in
      if bool_decide (indexOf item (lit "__") ≠ 0%Z)
      then (children ≫= flatten_item joined) ++ [joined]
      else []
  end.

Definition flattenPolyfillDirectories (directory : list jsstring) (items : list entry)
  : list (list jsstring) :=
  items ≫= flatten_item directory.

(** ** Dependency graph validation *)

Definition dependency_graph (polyfills : list Polyfill) : list (jsstring * jsstring) :=
  polyfills ≫= λ polyfill, map (λ dependency, (dependency, name polyfill)) (dependencies polyfill).

Definition circle_message : jsstring :=
  LF :: lit "There is a circle in the dependency graph." ++
  LF :: lit "Check the `dependencies` property of polyfill config files that have recently changed, and ensure that they do not form a circle of references.".

Definition missing_message (dependent dependency : jsstring) : jsstring :=
  lit "Polyfill " ++ dependent ++ lit " depends on " ++ dependency ++
  lit ", which does not exist within the polyfill-service. Recommended to either add the missing polyfill or remove the dependency.".

Definition checkForCircularDependencies (ext : Externals) (polyfills : list Polyfill)
  : result () :=
  match toposort ext (dependency_graph polyfills) with
  | inr _ => Ok ()
  | inl error => Err (Rejected (circle_message ++ error))
  end.

Definition checkDependenciesExist (polyfills : list Polyfill) : result () :=
  for_each (λ polyfill,
    for_each (λ dependency,
      if negb (existsb (λ polyfill', bool_decide (dependency = name polyfill')) polyfills)
      then Err (Rejected (missing_message (name polyfill) dependency))
      else Ok ())
      (dependencies polyfill))
    polyfills.

(** ** The alias index *)

(** The property names an object literal inherits from [Object.prototype]. *)
Definition object_prototype_keys : list jsstring :=
  map lit ["constructor"; "__defineGetter__"; "__defineSetter__"; "hasOwnProperty";
           "__lookupGetter__"; "__lookupSetter__"; "isPrototypeOf";
           "propertyIsEnumerable"; "toString"; "valueOf"; "__proto__";
           "toLocaleString"]%string.

(** What [aliases[alias]] evaluates to. *)
Inductive property :=
  | Undefined
  | Names (l : list jsstring)
  | Inherited.       (* a function or object of the prototype: truthy, not iterable *)

Definition get_property (aliases : gmap jsstring (list jsstring)) (alias : jsstring)
  : property :=
  match aliases !! alias with
  | Some l => Names l
  | None => if bool_decide (alias ∈ object_prototype_keys) then Inherited else Undefined
  end.

(** The body of the inner loop of [writeAliasFile]. *)
Definition add_alias (polyfill : Polyfill) (aliases : gmap jsstring (list jsstring))
    (alias : jsstring) : result (gmap jsstring (list jsstring)) :=
  match get_property aliases alias with
  | Names l => Ok (<[alias := l ++ [name polyfill]]> aliases)
  | Inherited => Err TypeError
  | Undefined => Ok (<[alias := [name polyfill]]> aliases)
  end.

Definition alias_index (polyfills : list Polyfill) : result (gmap jsstring (list jsstring)) :=
  fold_each (λ index polyfill, fold_each (add_alias polyfill) index (aliases polyfill))
    ∅ polyfills.

(** ** Output and orchestration *)

Definition output_path (o : output) : list jsstring :=
  match o with
  | MakeDirectory p | WriteAliases p _ | WriteMeta p _ | WriteSource p _ => p
  end.

(** [path.join(directory, segment)] for a segment without separator: an
    empty segment and [.] stay in the directory, [..] leads to its parent,
    and is kept as a component where there is no parent below the source
    root. *)
Definition path_join (directory : list jsstring) (segment : jsstring) : list jsstring :=
  if bool_decide (segment = [] ∨ segment = lit ".") then directory
  else if bool_decide (segment = lit "..") then
    match last directory with
    | None => [lit ".."]
    | Some c =>
        if bool_decide (c = lit "..") then directory ++ [lit ".."]
        else removelast directory
    end
  else directory ++ [segment].

Section Orchestrator.

Context (ext : Externals).

(** Start one operation on the destination tree. *)
Definition perform (o : output) : io () :=
  ([o], if io_ok ext o then Ok () else Err (FsError (output_path o))).

(** [Promise.all] of operations that are each started at once, in list
    order: a failure of one does not stop the others. *)
Definition perform_all (ops : list output) : io () :=
  (ops, first_rejection ((λ o, (perform o).2) <$> ops)).

(** What follows the first link of a chain [first.then(() => second)]. *)
Definition second_link (chain : output * io ()) : io () :=
  if io_ok ext chain.1 then chain.2
  else ([], Err (FsError (output_path chain.1))).

(** [Promise.all] of chains [first.then(() => second)] that have all been
    created: the first link of every chain is started, in list order,
    before the second link of any chain; the second links follow in list
    order, each when its first link has succeeded; a rejection of one
    chain does not stop the others. *)
Definition io_all (chains : list (output * io ())) : io () :=
  ((fst <$> chains) ++ (chains ≫= λ chain, (second_link chain).1),
   first_rejection ((λ chain, (second_link chain).2) <$> chains)).

Definition writeAliasFile (polyfills : list Polyfill) (directory : list jsstring) : io () :=
  match alias_index polyfills with
  | Ok index => perform (WriteAliases (directory ++ [lit "aliases.json"]) index)
  | Err e => io_lift (Err e)
  end.

(** The chain [writeOutput] returns, link by link: the creation of the
    directory, started at once, and the writes of the three files, started
    when the directory is there. *)
Definition writeOutput_links (root : list jsstring) (p : Polyfill) : output * io () :=
  let destination := path_join root (name p) in
  (MakeDirectory destination,
   match sources p with
   | Some s =>
       perform_all
         [WriteMeta (destination ++ [lit "meta.json"]) (config p);
          WriteSource (destination ++ [lit "raw.js"]) (src_raw s);
          WriteSource (destination ++ [lit "min.js"]) (src_min s)]
   | None =>
       io_then (perform (WriteMeta (destination ++ [lit "meta.json"]) (config p)))
         (λ _, io_lift (Err TypeError))
   end).

Definition writeOutput (root : list jsstring) (p : Polyfill) : io () :=
  io_then (perform (writeOutput_links root p).1) (λ _, (writeOutput_links root p).2).

(** [path.join(source, '__dist')], below the source root. *)
Definition destination : list jsstring := [lit "__dist"].

(** The features the loading stage is run for. *)
Definition candidates (fs : list entry) : list Polyfill :=
  filter (λ polyfill, hasConfigFile fs polyfill = true)
    (map (λ absolute, new_Polyfill absolute (relative (platform ext) absolute))
       (flattenPolyfillDirectories [] fs)).

Definition load_all (fs : list entry) : result (list Polyfill) :=
  promise_all (build_polyfill ext fs) (candidates fs).

(** The stages that follow loading. *)
Definition publish (polyfills : list Polyfill) : io () :=
  io_then (io_lift (checkForCircularDependencies ext polyfills)) (λ _,
  io_then (io_lift (checkDependenciesExist polyfills)) (λ _,
  io_then (perform (MakeDirectory destination)) (λ _,
  io_then (writeAliasFile polyfills destination) (λ _,
  io_all (map (writeOutput_links destination) polyfills))))).

(** One run of the script: the operations it started on the destination
    tree, and [Ok] when it logs success, [Err] when it exits with status 1. *)
Definition run (fs : list entry) : io () :=
  io_then (io_lift (load_all fs)) publish.

End Orchestrator.

(** ** The notions the properties are stated with *)

(** [a] reaches [b] along one or more edges of [g]. *)
Inductive reaches (g : list (jsstring * jsstring)) : jsstring → jsstring → Prop :=
  | reaches_edge a b : (a, b) ∈ g → reaches g a b
  | reaches_step a b c : (a, b) ∈ g → reaches g b c → reaches g a c.

Definition has_cycle (g : list (jsstring * jsstring)) : Prop := ∃ a, reaches g a a.

(** The contract of the [toposort] package the script relies on. *)
Definition detects_cycles (ext : Externals) : Prop :=
  ∀ g, has_cycle g → ∃ error, toposort ext g = inl error.


Definition is_missing (polyfills : list Polyfill) (dependency : jsstring) : Prop :=
  ∀ polyfill, polyfill ∈ polyfills → name polyfill ≠ dependency.


(** The names appended under [alias]: for every feature in order, for
    every alias of the feature in order, the feature's name when the alias is
    [alias]. *)
Definition listed_under (alias : jsstring) (polyfills : list Polyfill) : list jsstring :=
  polyfills ≫= λ polyfill,
    aliases polyfill ≫= λ a, if bool_decide (a = alias) then [name polyfill] else [].

(** An object has a key for the lists that are not empty. *)
Definition as_entry (l : list jsstring) : option (list jsstring) :=
  match l with
  | [] => None
  | _ :: _ => Some l
  end.

(** No key of the index is a name that an object literal inherits. *)
Definition no_inherited_key (index : gmap jsstring (list jsstring)) : Prop :=
  ∀ alias, alias ∈ object_prototype_keys → index !! alias = None.

(** The files [writeOutput] writes for a feature with sources, and all the
    operations it starts. *)
Definition feature_files (root : list jsstring) (p : Polyfill) (s : Sources)
  : list output :=
  [WriteMeta (path_join root (name p) ++ [lit "meta.json"]) (config p);
   WriteSource (path_join root (name p) ++ [lit "raw.js"]) (src_raw s);
   WriteSource (path_join root (name p) ++ [lit "min.js"]) (src_min s)].

Definition feature_outputs (root : list jsstring) (p : Polyfill) (s : Sources)
  : list output :=
  MakeDirectory (path_join root (name p)) :: feature_files root p s.




(** The components of a path joined by [sep]. *)
Fixpoint join (sep : N) (p : list jsstring) : jsstring :=
  match p with
  | [] => []
  | [c] => c
  | c :: p' => c ++ sep :: join sep p'
  end.

(** A name cut at its dots. *)
Fixpoint split_dots (current : jsstring) (s : jsstring) : list jsstring :=
  match s with
  | [] => [reverse current]
  | c :: s' =>
      if c =? DOT then reverse current :: split_dots [] s'
      else split_dots (c :: current) s'
  end.

(** The relative path with each separator replaced by a dot. *)
Definition dotted (relative : jsstring) : jsstring :=
  (λ c, if bool_decide (c = SLASH ∨ c = BACKSLASH) then DOT else c) <$> relative.

(** The layout of a tree: its directories and the names of its files. *)
Fixpoint layout (e : entry) : entry :=
  match e with
  | File item _ => File item None
  | Dir item children => Dir item (layout <$> children)
  end.

(** [p] leads through directories of the tree to a directory. *)
Inductive directory_at : list entry → list jsstring → Prop :=
  | directory_here items item children :
      Dir item children ∈ items → directory_at items [item]
  | directory_below items item children p :
      Dir item children ∈ items → directory_at children p →
      directory_at items (item :: p).

Definition reserved (item : jsstring) : Prop := ∃ rest, item = lit "__" ++ rest.

(** ** A small installation to run the script on *)

Module Demo.

Definition has_incoming (g : list (jsstring * jsstring)) (n : jsstring) : bool :=
  existsb (λ e, bool_decide (e.2 = n)) g.

(** One round of Kahn's algorithm: the edges that leave a node without
    incoming edge are removed. *)
Definition kahn_round (g : list (jsstring * jsstring)) : list (jsstring * jsstring) :=
  filter (λ e, has_incoming g e.1 = true) g.

Fixpoint kahn (rounds : nat) (g : list (jsstring * jsstring)) (sorted : list jsstring)
  : list (jsstring * jsstring) * list jsstring :=
  match rounds with
  | O => (g, sorted)
  | S k =>
      kahn k (kahn_round g)
        (sorted ++ (fst <$> filter (λ e, has_incoming g e.1 = false) g))
  end.

Definition first_occurrences (l : list jsstring) : list jsstring :=
  reverse (remove_dups (reverse l)).

Definition kahn_toposort (g : list (jsstring * jsstring)) : jsstring + list jsstring :=
  match kahn (length g) g [] with
  | ([], sorted) => inr (first_occurrences (sorted ++ (snd <$> g)))
  | ((a, _) :: _, _) => inl (lit "Error: Cyclic dependency: " ++ a)
  end.

Definition bare (al deps : option (list jsstring)) : Config :=
  {| config_aliases := al; config_dependencies := deps; license := None;
     licence := None; browsers := None; build := None; test := None;
     detectSource := None; baseDir := None; hasTests := None;
     isTestable := None; isPublic := None; size := None |}.

Definition with_license (id : jsstring) (c : Config) : Config :=
  {| config_aliases := config_aliases c; config_dependencies := config_dependencies c;
     license := Some id; licence := licence c; browsers := browsers c;
     build := build c; test := test c; detectSource := detectSource c;
     baseDir := baseDir c; hasTests := hasTests c; isTestable := isTestable c;
     isPublic := isPublic c; size := size c |}.

Definition with_licence (id : jsstring) (c : Config) : Config :=
  {| config_aliases := config_aliases c; config_dependencies := config_dependencies c;
     license := license c; licence := Some id; browsers := browsers c;
     build := build c; test := test c; detectSource := detectSource c;
     baseDir := baseDir c; hasTests := hasTests c; isTestable := isTestable c;
     isPublic := isPublic c; size := size c |}.

Definition with_browsers (t : list (jsstring * jsstring)) (c : Config) : Config :=
  {| config_aliases := config_aliases c; config_dependencies := config_dependencies c;
     license := license c; licence := licence c; browsers := Some t;
     build := build c; test := test c; detectSource := detectSource c;
     baseDir := baseDir c; hasTests := hasTests c; isTestable := isTestable c;
     isPublic := isPublic c; size := size c |}.

Definition without_minify (c : Config) : Config :=
  {| config_aliases := config_aliases c; config_dependencies := config_dependencies c;
     license := license c; licence := licence c; browsers := browsers c;
     build := Some {| minify := Some false |}; test := test c;
     detectSource := detectSource c;
     baseDir := baseDir c; hasTests := hasTests c; isTestable := isTestable c;
     isPublic := isPublic c; size := size c |}.

(** The configuration files of the examples, by their text. *)
Definition configs : list (jsstring * Config) :=
  [ (lit "aliases = ['bar']", bare (Some [lit "bar"]) None);
    (lit "dependencies = ['foo']", bare None (Some [lit "foo"]));
    (lit "dependencies = ['A']", bare None (Some [lit "A"]));
    (lit "dependencies = ['B']", bare None (Some [lit "B"]));
    (lit "aliases = ['all']", bare (Some [lit "all"]) None);
    (lit "licence = 'MIT'", with_licence (lit "MIT") (bare None None));
    (lit "license = 'MIT'", with_license (lit "MIT") (bare None None));
    (lit "build.minify = false", without_minify (bare None None));
    (lit "browsers.chrome = '*'",
       with_browsers [(lit "chrome", lit "*")] (bare None None));
    (lit "", bare None None) ].

Fixpoint parse_with (table : list (jsstring * Config)) (data : jsstring) : result Config :=
  match table with
  | [] => Err (Foreign (lit "Unexpected character"))
  | (text, c) :: table' => if bool_decide (text = data) then Ok c else parse_with table' data
  end.

Definition licenses (id : jsstring) : option LicenseInfo :=
  if bool_decide (id = lit "MIT")
  then Some {| license_name := lit "MIT License"; OSIApproved := true |}
  else if bool_decide (id = lit "CC0-1.0")
  then Some {| license_name := lit "Creative Commons Zero v1.0 Universal";
               OSIApproved := false |}
  else if bool_decide (id = lit "JSON")
  then Some {| license_name := lit "JSON License"; OSIApproved := false |}
  else None.

(** The minifier of the examples drops the white space of its input. *)
Definition squeeze (source : jsstring) : result jsstring :=
  Ok (filter (λ c, is_whitespace c = false) source).

Definition ext : Externals :=
  {| platform := Posix;
     source_root := lit "/polyfills";
     toml_parse := parse_with configs;
     toml_stringify := λ table, table ≫= λ entry, entry.1 ++ lit " = '" ++ entry.2 ++ lit "'" ++ [LF];
     baselines := [lit "chrome"];
     vm_script := λ _, Ok ();
     uglify_polyfill := squeeze;
     uglify_detect := squeeze;
     spdx := licenses;
     toposort := kahn_toposort;
     io_ok := λ _, true |}.

Definition feature (item config_text source : string) : entry :=
  Dir (lit item) [File (lit "config.toml") (Some (lit config_text));
                  File (lit "polyfill.js") (Some (lit source))].

(** The example of the specification: [foo] with alias [bar], and [baz]
    that depends on [foo]. *)
Definition foo_baz : list entry :=
  [feature "foo" "aliases = ['bar']" "var foo;";
   feature "baz" "dependencies = ['foo']" "var baz;"].

(** [A] depends on [B] and [B] on [A]. *)
Definition circle : list entry :=
  [feature "A" "dependencies = ['B']" "var a;";
   feature "B" "dependencies = ['A']" "var b;"].

(** An installation whose syntax check refuses unbalanced parentheses. *)
Fixpoint balanced (depth : nat) (code : jsstring) : bool :=
  match code with
  | [] => Nat.eqb depth 0
  | c :: code' =>
      if c =? 40 then balanced (S depth) code'
      else if c =? 41 then
        match depth with
        | O => false
        | S d => balanced d code'
        end
      else balanced depth code'
  end.

Definition strict : Externals :=
  {| platform := Posix;
     source_root := lit "/polyfills";
     toml_parse := parse_with configs;
     toml_stringify := toml_stringify ext;
     baselines := [lit "chrome"];
     vm_script := λ code,
       if balanced 0 code then Ok ()
       else Err (Foreign (lit "SyntaxError: Unexpected token"));
     uglify_polyfill := squeeze;
     uglify_detect := squeeze;
     spdx := licenses;
     toposort := kahn_toposort;
     io_ok := λ _, true |}.

(** An installation on which nothing can be created or written. *)
Definition read_only : Externals :=
  {| platform := Posix;
     source_root := lit "/polyfills";
     toml_parse := parse_with configs;
     toml_stringify := toml_stringify ext;
     baselines := [lit "chrome"];
     vm_script := λ _, Ok ();
     uglify_polyfill := squeeze;
     uglify_detect := squeeze;
     spdx := licenses;
     toposort := kahn_toposort;
     io_ok := λ _, false |}.

(** A feature with a detection snippet and tests, and an internal feature. *)
Definition fetch : list entry :=
  [Dir (lit "fetch")
     [File (lit "config.toml") (Some (lit "license = 'MIT'"));
      File (lit "polyfill.js") (Some (lit "var fetch;"));
      File (lit "detect.js") (Some (lit "'fetch' in self  "));
      File (lit "tests.js") (Some (lit "it('works');"))]].

Definition internal : list entry :=
  [feature "_x" "browsers.chrome = '*'" "var x;"].

(** The features of [circle] once loaded. *)
Definition a_needs_b : Polyfill :=
  set_config (bare None (Some [lit "B"])) (new_Polyfill [lit "A"] (lit "A")).

Definition b_needs_a : Polyfill :=
  set_config (bare None (Some [lit "A"])) (new_Polyfill [lit "B"] (lit "B")).

(** The features of that example once loaded, and a feature that declares
    the alias [all] itself. *)
Definition foo : Polyfill :=
  set_config (bare (Some [lit "bar"]) None) (new_Polyfill [lit "foo"] (lit "foo")).

Definition baz : Polyfill :=
  set_config (bare None (Some [lit "foo"])) (new_Polyfill [lit "baz"] (lit "baz")).

Definition qux : Polyfill :=
  set_config (bare (Some [lit "all"]) None) (new_Polyfill [lit "qux"] (lit "qux")).




End Demo.

(** * Properties *)

#[global] Arguments checkForCircularDependencies : simpl never.
#[global] Arguments checkDependenciesExist : simpl never.
#[global] Arguments alias_index : simpl never.
#[global] Arguments writeAliasFile : simpl never.
#[global] Arguments writeOutput : simpl never.
#[global] Arguments perform : simpl never.
#[global] Arguments build_polyfill : simpl never.
#[global] Arguments candidates : simpl never.

(** ** Strings *)

Lemma starts_with_prefix (pat s : jsstring) :
  starts_with pat s = true ↔ ∃ rest, s = pat ++ rest.
Proof.
  revert s. induction pat as [|a pat IH]; intros s; simpl.
  - split; [intros _; by exists s | done].
  - destruct s as [|b s].
    + split; [done | intros [rest [=]]].
    + rewrite andb_true_iff, N.eqb_eq, IH. split.
      * intros [-> [rest ->]]. by exists rest.
      * intros [rest [= -> ->]]. eauto.
Qed.

Lemma indexOf_from_range (i : Z) (pat s : jsstring) :
  indexOf_from i pat s = (-1)%Z ∨ (i ≤ indexOf_from i pat s)%Z.
Proof.
  revert i. induction s as [|c s IH]; intros i; simpl.
  - destruct (starts_with pat []); lia.
  - destruct (starts_with pat (c :: s)); [lia|].
    destruct (IH (i + 1)%Z); lia.
Qed.

(** [s.indexOf(pat) === 0] says that [s] begins with [pat]. *)
Lemma indexOf_zero (s pat : jsstring) :
  indexOf s pat = 0%Z ↔ starts_with pat s = true.
Proof.
  unfold indexOf. destruct s as [|c s]; simpl.
  - destruct (starts_with pat []); split; (done || lia).
  - destruct (starts_with pat (c :: s)); [done|].
    split; [|done]. destruct (indexOf_from_range (0 + 1) pat s); lia.
Qed.

Lemma replace_separators_dotted (s : jsstring) : replace_separators s = dotted s.
Proof.
  unfold dotted. induction s as [|c s IH]; [done|]. simpl. rewrite IH.
  destruct (N.eqb_spec c SLASH) as [->|?]; [done|].
  destruct (N.eqb_spec c BACKSLASH) as [->|?]; [done|].
  simpl. rewrite bool_decide_eq_false_2; [done | by intros [?|?]].
Qed.

Lemma utf8_byte_length_ascii (s : jsstring) :
  Forall (λ c, c < 0x80) s → utf8_byte_length s = length s.
Proof.
  induction 1 as [|c s Hc _ IH]; [done|]. simpl.
  apply N.ltb_lt in Hc. rewrite Hc. by rewrite IH.
Qed.

Lemma utf8_byte_length_bound (n : nat) (s : jsstring) :
  (length s ≤ n)%nat → (length s ≤ utf8_byte_length s)%nat.
Proof.
  revert s. induction n as [|n IH]; intros [|c s] Hn; simpl in *; try lia.
  assert (length s ≤ utf8_byte_length s)%nat as Hs by (apply IH; lia).
  repeat case_match; subst; simpl in *; try lia.
  match goal with |- (S (S (length ?t)) ≤ _)%nat =>
    assert (length t ≤ utf8_byte_length t)%nat by (apply IH; lia) end.
  lia.
Qed.

(** The regular expressions on an example each. *)
Example remove_source_map_lines_example :
  remove_source_map_lines true 0
    (lit "var a;" ++ LF :: lit "//# sourceMappingURL=a.js.map" ++ LF :: lit "var b;")
  = lit "var a;" ++ LF :: LF :: lit "var b;" ∧
  remove_source_map_lines true 0 (lit "x //# sourceMappingURL=a.js.map")
  = lit "x //# sourceMappingURL=a.js.map".
Proof. split; vm_compute; reflexivity. Qed.

Example strip_trailing_whitespace_example :
  strip_trailing_whitespace (lit "'fetch' in self  " ++ [LF]) = lit "'fetch' in self".
Proof. vm_compute. reflexivity. Qed.

Ltac occurs before after :=
  exists before, after; rewrite <- ?app_assoc, ?app_nil_r; reflexivity.

(** ** Minification *)

(** C1, as amended. When the build options of a feature set [minify] to
    [false], [minifyPolyfill] returns the source verbatim and
    newline-terminated as the minified variant, and the same text behind
    the header line [// <name>] (which itself follows a line break) as the
    raw variant; the minified variant carries no header. Neither the
    syntax check nor the minifier has a say: the result is the same for
    every collaborator. *)
Theorem minify_disabled_keeps_source (ext : Externals) (p : Polyfill) (source : jsstring) :
  minify_disabled (config p) = true →
  minifyPolyfill ext p source =
    Ok {| src_raw := LF :: lit "// " ++ name p ++ LF :: source ++ [LF];
          src_min := source ++ [LF] |}.
Proof.
  intros H. unfold minifyPolyfill. rewrite H. simpl.
  by rewrite <- !app_assoc.
Qed.

Lemma minify_disabled_keeps_source_witness :
  minifyPolyfill Demo.ext
    (set_config (Demo.without_minify (Demo.bare None None))
       (new_Polyfill [lit "foo"] (lit "foo")))
    (lit "var foo;") =
  Ok {| src_raw := LF :: lit "// " ++ lit "foo" ++ LF :: lit "var foo;" ++ [LF];
        src_min := lit "var foo;" ++ [LF] |}.
Proof.
  apply (minify_disabled_keeps_source Demo.ext
           (set_config (Demo.without_minify (Demo.bare None None))
              (new_Polyfill [lit "foo"] (lit "foo")))
           (lit "var foo;")).
  reflexivity.
Defined.

(** C1 as stated fails: with minification disabled the minified variant
    of feature [foo] is the bare source, the raw variant has the header. *)
Lemma minify_disabled_min_is_not_raw :
  ∃ s,
    minifyPolyfill Demo.ext
      (set_config (Demo.without_minify (Demo.bare None None))
         (new_Polyfill [lit "foo"] (lit "foo")))
      (lit "var foo;") = Ok s ∧
    src_min s = lit "var foo;" ++ [LF] ∧
    src_raw s = LF :: lit "// foo" ++ LF :: lit "var foo;" ++ [LF] ∧
    src_min s ≠ src_raw s.
Proof. eexists. split; [reflexivity|]. by vm_compute. Qed.

(** ** The size field *)

Lemma updateConfig_keeps (p p' : Polyfill) :
  updateConfig p = Ok p' →
  name p' = name p ∧ path_absolute p' = path_absolute p ∧
  path_relative p' = path_relative p ∧ sources p' = sources p ∧
  isPublic (config p') = isPublic (config p) ∧
  config_aliases (config p') = config_aliases (config p) ∧
  config_dependencies (config p') = config_dependencies (config p).
Proof.
  unfold updateConfig. destruct (sources p) eqn:Hs; [|done].
  intros [= <-]. simpl. by repeat split.
Qed.

(** C2, as amended. [updateConfig] sets [size] to the [length] of the
    minified source, that is to its number of UTF-16 code units. That
    number is the byte length when the source is ASCII, and never exceeds
    the byte length. *)
Theorem updateConfig_size (p : Polyfill) (s : Sources) :
  sources p = Some s →
  ∃ p', updateConfig p = Ok p' ∧
    sources p' = Some s ∧
    size (config p') = Some (length (src_min s)) ∧
    (Forall (λ c, c < 0x80) (src_min s) →
       size (config p') = Some (utf8_byte_length (src_min s))) ∧
    (length (src_min s) ≤ utf8_byte_length (src_min s))%nat.
Proof.
  intros Hs. unfold updateConfig. rewrite Hs. eexists. split; [done|].
  simpl. repeat split; [done | | by eapply utf8_byte_length_bound].
  intros Hascii. by rewrite utf8_byte_length_ascii.
Qed.

Lemma updateConfig_size_witness :
  ∃ p', updateConfig
          (set_sources {| src_raw := lit "// foo"; src_min := lit "var foo;" |}
             (new_Polyfill [lit "foo"] (lit "foo"))) = Ok p' ∧
    sources p' = Some {| src_raw := lit "// foo"; src_min := lit "var foo;" |} ∧
    size (config p') = Some 8%nat ∧
    (Forall (λ c, c < 0x80) (lit "var foo;") →
       size (config p') = Some (utf8_byte_length (lit "var foo;"))) ∧
    (8 ≤ utf8_byte_length (lit "var foo;"))%nat.
Proof.
  apply (updateConfig_size
           (set_sources {| src_raw := lit "// foo"; src_min := lit "var foo;" |}
              (new_Polyfill [lit "foo"] (lit "foo")))
           {| src_raw := lit "// foo"; src_min := lit "var foo;" |}).
  reflexivity.
Defined.

(** C2 as stated fails: the feature [cafe] is built without minification
    from the one-character source U+00E9; its minified source is that
    character and a line break, three bytes in UTF-8, and [size] is 2. *)
Lemma size_is_not_byte_length :
  ∃ p' s,
    build_polyfill Demo.ext
      [Dir (lit "cafe") [File (lit "config.toml") (Some (lit "build.minify = false"));
                         File (lit "polyfill.js") (Some [233])]]
      (new_Polyfill [lit "cafe"] (lit "cafe")) = Ok p' ∧
    sources p' = Some s ∧
    src_min s = [233; LF] ∧
    size (config p') = Some 2%nat ∧
    utf8_byte_length (src_min s) = 3%nat.
Proof. eexists _, _. split; [vm_compute; reflexivity|]. by vm_compute. Qed.

(** ** Licenses *)

(** C7. [checkLicense] throws exactly when the config has a license
    identifier that either does not resolve on the SPDX registry, or
    resolves to a license that is not OSI-approved while the identifier is
    neither [CC0-1.0] nor [WTFPL]; what it throws is an [Error] whose
    message contains the identifier; a config without license passes. *)
Theorem checkLicense_fails_iff (ext : Externals) (p : Polyfill) :
  ((∃ e, checkLicense ext p = Err e) ↔
     ∃ id, license (config p) = Some id ∧
       (spdx ext id = None ∨
        ∃ info, spdx ext id = Some info ∧ OSIApproved info = false ∧
                id ≠ lit "CC0-1.0" ∧ id ≠ lit "WTFPL")) ∧
  (∀ e, checkLicense ext p = Err e →
     ∃ id message, license (config p) = Some id ∧ e = JsError message ∧
                   occurs_in id message) ∧
  (license (config p) = None → checkLicense ext p = Ok ()).
Proof.
  unfold checkLicense. destruct (license (config p)) as [id|].
  2: { split_and!; [|done..]. split; [by intros [? ?] | by intros (? & ? & ?)]. }
  destruct (spdx ext id) as [info|] eqn:Hspdx.
  - destruct (bool_decide (id ≠ lit "CC0-1.0") && bool_decide (id ≠ lit "WTFPL")
              && negb (OSIApproved info)) eqn:Hb.
    + apply andb_true_iff in Hb as [Hb Hosi]. apply andb_true_iff in Hb as [H1 H2].
      apply bool_decide_eq_true in H1, H2. apply negb_true_iff in Hosi.
      split_and!; [|intros e [= <-]|done].
      * split; [|by eauto]. intros _. exists id. split; [done|]. right. by exists info.
      * eexists id, _. split_and!; [done..|].
        occurs (lit "The license ")
               (lit " (" ++ license_name info ++ lit ") is not OSI approved.").
    + split_and!; [|done..]. split; [by intros [? ?]|].
      intros (id' & Hid & Hcase). assert (id' = id) as -> by congruence.
      destruct Hcase as [?|(info' & ? & Hosi & ? & ?)]; [congruence|].
      assert (info' = info) as -> by congruence.
      rewrite !bool_decide_eq_true_2, Hosi in Hb by done. done.
  - split_and!; [|intros e [= <-]|done].
    + split; [|by eauto]. intros _. exists id. eauto.
    + eexists id, _. split_and!; [done..|].
      occurs (lit "The license ")
             (lit " is not on the SPDX list of licenses ( https://spdx.org/licenses/ ).").
Qed.

(** ** The misspelled license key *)

(** Once the config file of a feature is read and parsed and holds the key
    [licence], [loadConfig] fails, whether or not the key [license] is
    there. When the check of internal features passes the error is the one
    about the spelling, which names the feature; and whenever the feature
    is not internal or its config has a browser table the error names the
    feature. *)
Theorem misspelled_licence_fails (ext : Externals) (fs : list entry) (p : Polyfill)
    (data : jsstring) (c : Config) :
  readFile fs (configPath p) = Ok data →
  toml_parse ext data = Ok c →
  is_Some (licence c) →
  (∃ e, loadConfig ext fs p = Err e) ∧
  (check_internal ext p c = Ok () →
     loadConfig ext fs p =
       Err (JsError (lit "Incorrect spelling of license property in " ++ name p))) ∧
  (startsWith (path_relative p) [UNDERSCORE] = false ∨ is_Some (browsers c) →
     ∃ message, loadConfig ext fs p = Err (JsError message) ∧
                occurs_in (name p) message).
Proof.
  intros Hread Hparse [l Hl]. unfold loadConfig. rewrite Hread. simpl.
  rewrite Hparse. simpl.
  destruct (check_internal ext p c) as [[]|e] eqn:Hint; simpl; rewrite ?Hl.
  - split_and!; [by eauto | done |]. intros _. eexists. split; [done|].
    occurs (lit "Incorrect spelling of license property in ") (@nil N).
  - split_and!; [by eauto | done |]. intros Hcase. revert Hint.
    unfold check_internal.
    destruct Hcase as [-> | [t Ht]]; [done|].
    destruct (startsWith _ _); [|done].
    unfold targets_all_browsers. rewrite Ht.
    destruct (baselines ext) as [|b bs] eqn:Hb; simpl; [done|].
    case_match; [done|]. intros [= <-]. eexists. split; [done|].
    occurs (lit "Internal polyfill called ")
      (lit " is not targeting all supported browsers correctly. It should be: " ++
       LF :: toml_stringify ext (browserSupport (b :: bs))).
Qed.

Lemma misspelled_licence_fails_witness :
  (∃ e, loadConfig Demo.ext
          [Demo.feature "foo" "licence = 'MIT'" "var foo;"]
          (new_Polyfill [lit "foo"] (lit "foo")) = Err e) ∧
  (check_internal Demo.ext (new_Polyfill [lit "foo"] (lit "foo"))
     (Demo.with_licence (lit "MIT") (Demo.bare None None)) = Ok () →
   loadConfig Demo.ext
     [Demo.feature "foo" "licence = 'MIT'" "var foo;"]
     (new_Polyfill [lit "foo"] (lit "foo")) =
   Err (JsError (lit "Incorrect spelling of license property in " ++
                 name (new_Polyfill [lit "foo"] (lit "foo"))))) ∧
  (startsWith (path_relative (new_Polyfill [lit "foo"] (lit "foo"))) [UNDERSCORE] = false ∨
   is_Some (browsers (Demo.with_licence (lit "MIT") (Demo.bare None None))) →
   ∃ message,
     loadConfig Demo.ext
       [Demo.feature "foo" "licence = 'MIT'" "var foo;"]
       (new_Polyfill [lit "foo"] (lit "foo")) = Err (JsError message) ∧
     occurs_in (name (new_Polyfill [lit "foo"] (lit "foo"))) message).
Proof.
  apply (misspelled_licence_fails Demo.ext
           [Demo.feature "foo" "licence = 'MIT'" "var foo;"]
           (new_Polyfill [lit "foo"] (lit "foo"))
           (lit "licence = 'MIT'")
           (Demo.with_licence (lit "MIT") (Demo.bare None None))).
  - reflexivity.
  - reflexivity.
  - exists (lit "MIT"). reflexivity.
Defined.

(** C6, where the code departs from it. The config of the internal
    feature [_x] has the key [licence] and no browser table: the check of
    internal features reads a key of the missing table, which raises a
    [TypeError] before the spelling is looked at. Loading fails, but with
    an error that names no feature, whereas a table that is present and
    incomplete gives the error that names the feature. *)
Lemma misspelled_licence_type_error :
  loadConfig Demo.ext
    [Demo.feature "_x" "licence = 'MIT'" "var x;"]
    (new_Polyfill [lit "_x"] (lit "_x")) = Err TypeError ∧
  ¬ ∃ message,
      loadConfig Demo.ext
        [Demo.feature "_x" "licence = 'MIT'" "var x;"]
        (new_Polyfill [lit "_x"] (lit "_x")) = Err (JsError message) ∧
      occurs_in (lit "_x") message.
Proof.
  assert (loadConfig Demo.ext [Demo.feature "_x" "licence = 'MIT'" "var x;"]
            (new_Polyfill [lit "_x"] (lit "_x")) = Err TypeError) as H
    by (vm_compute; reflexivity).
  split; [exact H|]. rewrite H. by intros (? & ? & ?).
Qed.

(** ** Loops *)




Lemma for_each_all_ok {A} (body : A → result ()) (l : list A) :
  (∀ x, x ∈ l → body x = Ok ()) → for_each body l = Ok ().
Proof.
  induction l as [|a l IH]; intros H; [done|]. simpl.
  rewrite (H a) by left. simpl. apply IH. intros x Hx. apply H. by right.
Qed.



(** ** Existence of dependencies *)







(** ** Circular dependencies *)

Lemma walk_edges (g : list (jsstring * jsstring)) (a b : jsstring) :
  reaches g a b →
  ∃ E : list (jsstring * jsstring),
    (∀ e, e ∈ E → e ∈ g) ∧ (∃ x, (x, b) ∈ E) ∧
    (∀ e, e ∈ E → e.1 = a ∨ ∃ r, (r, e.1) ∈ E).
Proof.
  induction 1 as [a b Hab | a b c Hab _ (E & Hsub & [x Hx] & Hsrc)].
  - exists [(a, b)]. split_and!.
    + by intros e ->%list_elem_of_singleton.
    + exists a. by left.
    + intros e ->%list_elem_of_singleton. by left.
  - exists ((a, b) :: E). split_and!.
    + intros e [->|?]%elem_of_cons; auto.
    + exists x. by right.
    + intros e [->|He]%elem_of_cons; [by left|]. right.
      destruct (Hsrc e He) as [->|[r Hr]]; [exists a; by left | exists r; by right].
Qed.

(** The edges of a circle feed one another. *)
Lemma circle_edges (g : list (jsstring * jsstring)) :
  has_cycle g →
  ∃ E : list (jsstring * jsstring),
    E ≠ [] ∧ (∀ e, e ∈ E → e ∈ g) ∧ (∀ e, e ∈ E → ∃ r, (r, e.1) ∈ E).
Proof.
  intros [a (E & Hsub & [x Hx] & Hsrc)%walk_edges]. exists E. split_and!; [|done|].
  - intros ->. by apply elem_of_nil in Hx.
  - intros e He. destruct (Hsrc e He) as [->|?]; [by exists x | done].
Qed.

Module DemoFacts.

Lemma kahn_round_keeps (E g : list (jsstring * jsstring)) :
  (∀ e, e ∈ E → e ∈ g) → (∀ e, e ∈ E → ∃ r, (r, e.1) ∈ E) →
  ∀ e, e ∈ E → e ∈ Demo.kahn_round g.
Proof.
  intros Hsub Hfed e He. unfold Demo.kahn_round. apply list_elem_of_filter.
  split; [|by apply Hsub]. destruct (Hfed e He) as [r Hr].
  unfold Demo.has_incoming. apply existsb_exists. exists (r, e.1).
  split; [apply list_elem_of_In; by apply Hsub | by apply bool_decide_eq_true].
Qed.

Lemma kahn_keeps (E : list (jsstring * jsstring)) (rounds : nat) :
  (∀ e, e ∈ E → ∃ r, (r, e.1) ∈ E) →
  ∀ g sorted, (∀ e, e ∈ E → e ∈ g) →
  ∀ e, e ∈ E → e ∈ (Demo.kahn rounds g sorted).1.
Proof.
  intros Hfed. induction rounds as [|k IH]; intros g sorted Hsub; [done|].
  simpl. apply IH. by apply kahn_round_keeps.
Qed.

(** The sort of the examples honours the contract. *)
Lemma kahn_detects : detects_cycles Demo.ext.
Proof.
  intros g (E & Hne & Hsub & Hfed)%circle_edges. simpl. unfold Demo.kahn_toposort.
  pose proof (kahn_keeps E (length g) Hfed g [] Hsub) as Hkeep.
  destruct (Demo.kahn (length g) g []) as [[|[a b] rest] sorted]; [|by eauto].
  destruct E as [|e E]; [done|]. specialize (Hkeep e (list_elem_of_here _ _)).
  by apply elem_of_nil in Hkeep.
Qed.

End DemoFacts.

Lemma run_output_after_validation (ext : Externals) (fs : list entry) (o : output) :
  o ∈ (run ext fs).1 →
  ∃ polyfills,
    load_all ext fs = Ok polyfills ∧
    checkForCircularDependencies ext polyfills = Ok () ∧
    checkDependenciesExist polyfills = Ok ().
Proof.
  unfold run. destruct (load_all ext fs) as [polyfills|e]; simpl.
  2: { by intros ?%elem_of_nil. }
  unfold publish.
  destruct (checkForCircularDependencies ext polyfills) as [[]|e] eqn:Hcircle; simpl.
  2: { by intros ?%elem_of_nil. }
  destruct (checkDependenciesExist polyfills) as [[]|e] eqn:Hexist; simpl.
  2: { by intros ?%elem_of_nil. }
  intros _. by exists polyfills.
Qed.

(** C4. With a [toposort] that reports circles: when the dependency
    edges (dependency, dependent) of the loaded features contain a circle,
    the run is rejected with the diagnostic about circles and has started
    no operation on the destination tree; and on any run, an operation on
    the destination tree (creating a directory, writing the alias index,
    a metadata file or a source file) is only started after the circle
    check has passed on the loaded features, whose edges then contain no
    circle. *)
Theorem circle_fails_before_output (ext : Externals) :
  detects_cycles ext →
  (∀ fs polyfills,
     load_all ext fs = Ok polyfills →
     has_cycle (dependency_graph polyfills) →
     ∃ error, run ext fs = ([], Err (Rejected (circle_message ++ error)))) ∧
  (∀ fs o,
     o ∈ (run ext fs).1 →
     ∃ polyfills,
       load_all ext fs = Ok polyfills ∧
       checkForCircularDependencies ext polyfills = Ok () ∧
       ¬ has_cycle (dependency_graph polyfills)).
Proof.
  intros Hdetects. split.
  - intros fs polyfills Hload [error Herror]%Hdetects.
    exists error. unfold run. rewrite Hload. simpl.
    unfold publish, checkForCircularDependencies. by rewrite Herror.
  - intros fs o (polyfills & Hload & Hcircle & _)%run_output_after_validation.
    exists polyfills. split_and!; [done..|].
    intros [error Herror]%Hdetects. revert Hcircle.
    unfold checkForCircularDependencies. by rewrite Herror.
Qed.

Lemma circle_fails_before_output_witness :
  ∃ error, run Demo.ext Demo.circle = ([], Err (Rejected (circle_message ++ error))).
Proof.
  destruct (circle_fails_before_output Demo.ext DemoFacts.kahn_detects) as [Hfails _].
  eapply (Hfails Demo.circle).
  - vm_compute. reflexivity.
  - exists (lit "A"). apply reaches_step with (lit "B").
    + vm_compute. right. left.
    + apply reaches_edge. vm_compute. left.
Defined.

(** ** The alias index *)

Lemma add_alias_extends (polyfill : Polyfill) (index : gmap jsstring (list jsstring))
    (listed : jsstring → list jsstring) (alias : jsstring) :
  alias ∉ object_prototype_keys →
  (∀ a, index !! a = as_entry (listed a)) →
  ∃ index',
    add_alias polyfill index alias = Ok index' ∧
    ∀ a, index' !! a =
         as_entry (listed a ++ if bool_decide (alias = a) then [name polyfill] else []).
Proof.
  intros Hown Hindex. unfold add_alias, get_property.
  pose proof (Hindex alias) as Halias.
  destruct (index !! alias) as [l|] eqn:Hl.
  - eexists. split; [done|]. intros a. case_bool_decide as Ha.
    + subst a. rewrite lookup_insert_eq.
      destruct (listed alias) as [|n l']; simplify_eq/=. done.
    + rewrite lookup_insert_ne by done. by rewrite app_nil_r.
  - rewrite bool_decide_eq_false_2 by done.
    eexists. split; [done|]. intros a. case_bool_decide as Ha.
    + subst a. rewrite lookup_insert_eq.
      by destruct (listed alias) as [|n l'].
    + rewrite lookup_insert_ne by done. by rewrite app_nil_r.
Qed.

Lemma fold_each_cons {A S} (body : S → A → result S) (s : S) (a : A) (l : list A) :
  fold_each body s (a :: l) = (s' ← body s a; fold_each body s' l).
Proof. reflexivity. Qed.

Lemma add_aliases_extends (polyfill : Polyfill) (declared : list jsstring) :
  (∀ alias, alias ∈ declared → alias ∉ object_prototype_keys) →
  ∀ (index : gmap jsstring (list jsstring)) (listed : jsstring → list jsstring),
  (∀ a, index !! a = as_entry (listed a)) →
  ∃ index',
    fold_each (add_alias polyfill) index declared = Ok index' ∧
    ∀ a, index' !! a =
         as_entry (listed a ++
                   (declared ≫= λ alias, if bool_decide (alias = a) then [name polyfill] else [])).
Proof.
  induction declared as [|alias declared IH]; intros Hown index listed Hindex.
  - exists index. split; [done|]. intros a. by rewrite app_nil_r.
  - destruct (add_alias_extends polyfill index listed alias) as (index1 & Hadd & H1).
    { apply Hown. by left. }
    { done. }
    destruct (IH (λ a Ha, Hown a (list_elem_of_further _ _ _ Ha)) index1 _ H1)
      as (index2 & Hfold & H2).
    exists index2. split.
    + rewrite fold_each_cons, Hadd. exact Hfold.
    + intros a. rewrite H2, <- app_assoc. done.
Qed.

Lemma alias_index_extends (polyfills : list Polyfill) :
  (∀ polyfill alias, polyfill ∈ polyfills → alias ∈ aliases polyfill →
     alias ∉ object_prototype_keys) →
  ∀ (index : gmap jsstring (list jsstring)) (listed : jsstring → list jsstring),
  (∀ a, index !! a = as_entry (listed a)) →
  ∃ index',
    fold_each (λ index polyfill, fold_each (add_alias polyfill) index (aliases polyfill))
      index polyfills = Ok index' ∧
    ∀ a, index' !! a = as_entry (listed a ++ listed_under a polyfills).
Proof.
  induction polyfills as [|polyfill polyfills IH]; intros Hown index listed Hindex.
  - exists index. split; [done|]. intros a. by rewrite app_nil_r.
  - destruct (add_aliases_extends polyfill (aliases polyfill)
                (λ a Ha, Hown polyfill a (list_elem_of_here _ _) Ha) index listed Hindex)
      as (index1 & Hadd & H1).
    destruct (IH (λ q a Hq, Hown q a (list_elem_of_further _ _ _ Hq)) index1 _ H1)
      as (index2 & Hfold & H2).
    exists index2. split.
    + rewrite fold_each_cons, Hadd. exact Hfold.
    + intros a. rewrite H2, <- app_assoc. done.
Qed.

Lemma listed_under_all (polyfills : list Polyfill) :
  (∀ polyfill, polyfill ∈ polyfills →
     lit "all" ∉ default [] (config_aliases (config polyfill))) →
  listed_under (lit "all") polyfills = name <$> polyfills.
Proof.
  induction polyfills as [|polyfill polyfills IH]; intros Hnone; [done|].
  unfold listed_under in *. rewrite bind_cons, fmap_cons, IH.
  2: { intros q Hq. apply Hnone. by right. }
  unfold aliases. rewrite bind_cons, bool_decide_eq_true_2 by done.
  pose proof (Hnone polyfill (list_elem_of_here _ _)) as Hp.
  induction (default [] (config_aliases (config polyfill))) as [|a l IHl]; [done|].
  rewrite bind_cons, bool_decide_eq_false_2.
  - apply IHl. intros Hin. apply Hp. by right.
  - intros ->. apply Hp. by left.
Qed.

Lemma listed_under_all_has (polyfills : list Polyfill) (polyfill : Polyfill) :
  polyfill ∈ polyfills → name polyfill ∈ listed_under (lit "all") polyfills.
Proof.
  intros Hp. unfold listed_under. apply list_elem_of_bind. exists polyfill.
  split; [|done]. unfold aliases. rewrite bind_cons, bool_decide_eq_true_2 by done.
  by left.
Qed.

(** C5, as amended. When no declared alias is a property name that an
    object literal inherits, the index that [writeAliasFile] writes maps
    each alias to the names appended for it, feature by feature in order
    and, within a feature, alias by alias over [all] followed by the
    declared aliases, repeated declarations included; an alias nobody has
    is no key of the index. Under [all] every feature's name is listed;
    when no feature declares [all] itself, [all] maps to the names of the
    features in order, each once per feature. *)
Theorem alias_index_lists (polyfills : list Polyfill) :
  (∀ polyfill alias, polyfill ∈ polyfills →
     alias ∈ default [] (config_aliases (config polyfill)) →
     alias ∉ object_prototype_keys) →
  ∃ index,
    alias_index polyfills = Ok index ∧
    (∀ ext directory,
       writeAliasFile ext polyfills directory =
       perform ext (WriteAliases (directory ++ [lit "aliases.json"]) index)) ∧
    (∀ alias, index !! alias = as_entry (listed_under alias polyfills)) ∧
    (∀ polyfill, polyfill ∈ polyfills →
       ∃ l, index !! lit "all" = Some l ∧ name polyfill ∈ l) ∧
    ((∀ polyfill, polyfill ∈ polyfills →
        lit "all" ∉ default [] (config_aliases (config polyfill))) →
     index !! lit "all" = as_entry (name <$> polyfills)).
Proof.
  intros Hown.
  destruct (alias_index_extends polyfills) with (index := (∅ : gmap jsstring (list jsstring)))
    (listed := λ _ : jsstring, @nil jsstring) as (index & Hindex & Hlookup).
  { intros q a Hq [->|Ha]%elem_of_cons; [|by eapply Hown].
    apply (bool_decide_unpack _). vm_compute. reflexivity. }
  { intros a. apply lookup_empty. }
  exists index. split_and!.
  - exact Hindex.
  - intros ext directory. unfold writeAliasFile. unfold alias_index. by rewrite Hindex.
  - exact Hlookup.
  - intros q Hq. rewrite Hlookup. simpl.
    pose proof (listed_under_all_has polyfills q Hq) as Hin.
    destruct (listed_under (lit "all") polyfills) as [|n l]; [by apply elem_of_nil in Hin|].
    by eexists.
  - intros Hnone. by rewrite Hlookup, listed_under_all.
Qed.

Lemma alias_index_lists_witness :
  ∃ index,
    alias_index [Demo.foo; Demo.baz] = Ok index ∧
    (∀ ext directory,
       writeAliasFile ext [Demo.foo; Demo.baz] directory =
       perform ext (WriteAliases (directory ++ [lit "aliases.json"]) index)) ∧
    (∀ alias, index !! alias = as_entry (listed_under alias [Demo.foo; Demo.baz])) ∧
    (∀ polyfill, polyfill ∈ [Demo.foo; Demo.baz] →
       ∃ l, index !! lit "all" = Some l ∧ name polyfill ∈ l) ∧
    ((∀ polyfill, polyfill ∈ [Demo.foo; Demo.baz] →
        lit "all" ∉ default [] (config_aliases (config polyfill))) →
     index !! lit "all" = as_entry (name <$> [Demo.foo; Demo.baz])).
Proof.
  apply (alias_index_lists [Demo.foo; Demo.baz]).
  intros q a Hq Ha. apply (bool_decide_unpack _).
  apply elem_of_cons in Hq as [-> | Hq].
  - apply list_elem_of_singleton in Ha. rewrite Ha. vm_compute. reflexivity.
  - apply list_elem_of_singleton in Hq. rewrite Hq in Ha. vm_compute in Ha.
    by apply elem_of_nil in Ha.
Defined.

(** The example of the specification: the index of [foo] (alias [bar])
    and [baz]. *)
Example alias_index_foo_baz :
  alias_index [Demo.foo; Demo.baz] =
  Ok {[ lit "all" := [lit "foo"; lit "baz"]; lit "bar" := [lit "foo"] ]}.
Proof. vm_compute. reflexivity. Qed.

(** C5 as stated fails: [qux] declares the alias [all], and is listed
    twice under [all]. *)
Lemma all_lists_a_name_twice :
  ∃ index,
    alias_index [Demo.qux] = Ok index ∧
    index !! lit "all" = Some [lit "qux"; lit "qux"] ∧
    ¬ (∀ l, index !! lit "all" = Some l →
            length (filter (λ n, n = name Demo.qux) l) = 1%nat).
Proof.
  eexists. split; [vm_compute; reflexivity|]. split; [vm_compute; reflexivity|].
  intros H. specialize (H [lit "qux"; lit "qux"]). vm_compute in H.
  specialize (H eq_refl). discriminate.
Qed.

(** An alias that an object literal inherits stops the index. *)
Example alias_index_inherited :
  alias_index
    [set_config (Demo.bare (Some [lit "constructor"]) None)
       (new_Polyfill [lit "foo"] (lit "foo"))] = Err TypeError.
Proof. vm_compute. reflexivity. Qed.

(** ** What the stages keep *)

Lemma load_detect_keeps (ext : Externals) (fs : list entry) (p : Polyfill)
    (c c' : Config) :
  load_detect ext fs p c = Ok c' → isPublic c' = isPublic c.
Proof.
  unfold load_detect. destruct (existsSync fs (detectPath p)); [|by intros [= <-]].
  destruct (readFile fs (detectPath p)) as [text|]; [simpl|done].
  destruct (minifyDetect ext _ _) as [detect|]; [simpl|done].
  destruct (validateSource ext _ _) as [[]|]; [simpl|done].
  by intros [= <-].
Qed.

Lemma loadConfig_keeps (ext : Externals) (fs : list entry) (p p' : Polyfill) :
  loadConfig ext fs p = Ok p' →
  name p' = name p ∧ path_absolute p' = path_absolute p ∧
  path_relative p' = path_relative p ∧ sources p' = sources p ∧
  isPublic (config p') = Some (bool_decide (indexOf (name p) [UNDERSCORE] ≠ 0%Z)).
Proof.
  unfold loadConfig. destruct (readFile fs (configPath p)) as [data|]; [|done].
  destruct (toml_parse ext data) as [c|]; [simpl|done].
  destruct (check_internal ext p c) as [[]|]; [simpl|done].
  destruct (licence c); [done|].
  destruct (load_detect ext fs p _) as [c'|] eqn:Hdetect; [simpl|done].
  intros [= <-]. apply load_detect_keeps in Hdetect. simpl. by rewrite Hdetect.
Qed.

Lemma loadSources_keeps (ext : Externals) (fs : list entry) (p p' : Polyfill) :
  loadSources ext fs p = Ok p' →
  name p' = name p ∧ path_absolute p' = path_absolute p ∧
  path_relative p' = path_relative p ∧ config p' = config p.
Proof.
  unfold loadSources.
  destruct (match readFile fs (sourcePath p) with Ok raw => _ | Err e => _ end); [|done].
  by intros [= <-].
Qed.

Lemma build_polyfill_keeps (ext : Externals) (fs : list entry) (p p' : Polyfill) :
  build_polyfill ext fs p = Ok p' →
  name p' = name p ∧ path_absolute p' = path_absolute p ∧
  path_relative p' = path_relative p ∧
  isPublic (config p') = Some (bool_decide (indexOf (name p) [UNDERSCORE] ≠ 0%Z)).
Proof.
  unfold build_polyfill.
  destruct (loadConfig ext fs p) as [p1|] eqn:H1; [simpl|done].
  destruct (checkLicense ext p1) as [[]|]; [simpl|done].
  destruct (loadSources ext fs p1) as [p2|] eqn:H2; [simpl|done].
  intros H3.
  apply loadConfig_keeps in H1 as (? & ? & ? & ? & ?).
  apply loadSources_keeps in H2 as (? & ? & ? & Hc).
  apply updateConfig_keeps in H3 as (? & ? & ? & ? & Hpublic & _).
  rewrite Hpublic, Hc. split_and!; congruence.
Qed.

Lemma promise_all_inv {A B} (f : A → result B) (l : list A) (bs : list B) :
  promise_all f l = Ok bs → Forall2 (λ a b, f a = Ok b) l bs.
Proof.
  revert bs. induction l as [|a l IH]; intros bs; simpl.
  - intros [= <-]. constructor.
  - destruct (f a) as [b|] eqn:Hfa; [|done].
    destruct (promise_all f l) as [bs'|]; [|done].
    intros [= <-]. constructor; [done | by apply IH].
Qed.

Lemma promise_all_error {A B} (f : A → result B) (l : list A) (e : error) :
  promise_all f l = Err e → ∃ a, a ∈ l ∧ f a = Err e.
Proof.
  induction l as [|a l IH]; simpl; [done|].
  destruct (f a) as [b|e'] eqn:Hfa.
  - destruct (promise_all f l) as [bs'|e']; [done|]. intros [= <-].
    destruct IH as (a' & Ha' & Hfa'); [done|]. exists a'. split; [by right | done].
  - intros [= <-]. exists a. split; [by left | done].
Qed.

(** ** Discovery *)

Lemma entry_nested_ind (P : entry → Prop) :
  (∀ item contents, P (File item contents)) →
  (∀ item children, Forall P children → P (Dir item children)) →
  ∀ e, P e.
Proof.
  intros Hfile Hdir. fix IH 1. intros [item contents | item children].
  - apply Hfile.
  - apply Hdir. induction children as [|c children IHc]; constructor; [apply IH | exact IHc].
Qed.

Lemma reserved_test (item : jsstring) :
  bool_decide (indexOf item (lit "__") ≠ 0%Z) = true ↔ ¬ reserved item.
Proof.
  rewrite bool_decide_eq_true, indexOf_zero, starts_with_prefix. done.
Qed.

Lemma directory_at_mono (items items' : list entry) (p : list jsstring) :
  (∀ e, e ∈ items → e ∈ items') → directory_at items p → directory_at items' p.
Proof.
  intros Hsub H. destruct H as [items item children Hin | items item children p Hin Hp].
  - eapply directory_here. by apply Hsub.
  - eapply directory_below; [by apply Hsub | done].
Qed.

Lemma directory_at_entry (items : list entry) (p : list jsstring) :
  directory_at items p → ∃ e, e ∈ items ∧ directory_at [e] p.
Proof.
  intros [items' item children Hin | items' item children p' Hin Hp].
  - eexists. split; [done|]. eapply directory_here. by left.
  - eexists. split; [done|]. eapply directory_below; [by left | done].
Qed.

Lemma flatten_item_spec (e : entry) :
  ∀ directory d,
    d ∈ flatten_item directory e ↔
    ∃ p, d = directory ++ p ∧ directory_at [e] p ∧ Forall (λ item, ¬ reserved item) p.
Proof.
  induction e as [item contents | item children IH] using entry_nested_ind;
    intros directory d.
  - simpl. split; [by intros ?%elem_of_nil|].
    intros (p & _ & Hat & _).
    inversion Hat as [? ? ? Hin | ? ? ? ? Hin]; subst;
      by apply list_elem_of_singleton in Hin.
  - simpl. destruct (bool_decide (indexOf item (lit "__") ≠ 0%Z)) eqn:Htest.
    + apply reserved_test in Htest.
      rewrite elem_of_app, list_elem_of_singleton, list_elem_of_bind. split.
      * intros [(c & Hd & Hc) | ->].
        -- rewrite Forall_forall in IH.
           apply (IH c Hc) in Hd as (p & -> & Hat & Hok).
           exists (item :: p). split_and!.
           ++ by rewrite <- app_assoc.
           ++ eapply directory_below; [by left|].
              eapply directory_at_mono; [|exact Hat].
              by intros ? ->%list_elem_of_singleton.
           ++ by constructor.
        -- exists [item]. split_and!; [done | eapply directory_here; by left |].
           by repeat constructor.
      * intros (p & -> & Hat & Hok).
        inversion Hat as [? ? ? Hin | ? ? children' p' Hin Hbelow]; subst.
        -- apply list_elem_of_singleton in Hin. simplify_eq. by right.
        -- left. apply list_elem_of_singleton in Hin. simplify_eq.
           apply directory_at_entry in Hbelow as (c & Hc & Hbelow).
           exists c. split; [|done]. rewrite Forall_forall in IH.
           apply (IH c Hc). exists p'. split_and!; [by rewrite <- app_assoc | done |].
           by inversion Hok.
    + apply not_true_iff_false in Htest. rewrite reserved_test in Htest.
      split; [by intros ?%elem_of_nil|]. intros (p & _ & Hat & Hok).
      exfalso. apply Htest.
      inversion Hat as [? ? ? Hin | ? ? ? ? Hin]; subst;
        apply list_elem_of_singleton in Hin; simplify_eq;
        by inversion Hok.
Qed.

Lemma flatten_spec (directory : list jsstring) (items : list entry) (d : list jsstring) :
  d ∈ flattenPolyfillDirectories directory items ↔
  ∃ p, d = directory ++ p ∧ directory_at items p ∧ Forall (λ item, ¬ reserved item) p.
Proof.
  unfold flattenPolyfillDirectories. rewrite list_elem_of_bind. split.
  - intros (e & (p & -> & Hat & Hok)%flatten_item_spec & He).
    exists p. split_and!; [done | | done].
    eapply directory_at_mono; [|exact Hat]. by intros ? ->%list_elem_of_singleton.
  - intros (p & -> & (e & He & Hat)%directory_at_entry & Hok).
    exists e. split; [|done]. apply flatten_item_spec. by exists p.
Qed.

Lemma promise_all_from {A B} (f : A → result B) (l : list A) (bs : list B) (b : B) :
  promise_all f l = Ok bs → b ∈ bs → ∃ a, a ∈ l ∧ f a = Ok b.
Proof.
  intros Hall%promise_all_inv Hb. induction Hall as [|a b' l bs Hab _ IH].
  - by apply elem_of_nil in Hb.
  - apply elem_of_cons in Hb as [-> | Hb].
    + exists a. split; [by left | done].
    + destruct (IH Hb) as (a' & Ha' & Hfa'). exists a'. split; [by right | done].
Qed.

Lemma candidates_spec (ext : Externals) (fs : list entry) (p : Polyfill) :
  p ∈ candidates ext fs ↔
  ∃ d, d ∈ flattenPolyfillDirectories [] fs ∧
       existsSync fs (d ++ [lit "config.toml"]) = true ∧
       p = new_Polyfill d (relative (platform ext) d).
Proof.
  unfold candidates. rewrite list_elem_of_filter, list_elem_of_fmap. split.
  - intros (Hconfig & d & -> & Hd). by exists d.
  - intros (d & Hd & Hconfig & ->). split; [done | by exists d].
Qed.

Lemma not_reserved_test (item : jsstring) :
  startsWith item (lit "__") = false ↔ ¬ reserved item.
Proof.
  unfold startsWith, reserved. rewrite <- starts_with_prefix.
  by destruct (starts_with (lit "__") item).
Qed.

Lemma relative_head (pl : Platform) (top : jsstring) (rest : list jsstring) :
  ∃ tail, relative pl (top :: rest) = top ++ tail ∧
          (tail = [] ∨ ∃ tail', tail = path_sep pl :: tail').
Proof.
  destruct rest as [|c rest].
  - exists []. split; [by rewrite app_nil_r | by left].
  - eexists. split; [reflexivity|]. right. by eexists.
Qed.

Lemma internal_by_top (pl : Platform) (top : jsstring) (rest : list jsstring) :
  startsWith (relative pl (top :: rest)) [UNDERSCORE] = startsWith top [UNDERSCORE].
Proof.
  destruct (relative_head pl top rest) as (tail & -> & Htail). unfold startsWith.
  destruct top as [|c top]; simpl.
  - destruct Htail as [-> | [tail' ->]]; [done|]. by destruct pl.
  - done.
Qed.

Lemma public_by_top (pl : Platform) (top : jsstring) (rest : list jsstring) :
  bool_decide (indexOf (replace_separators (relative pl (top :: rest))) [UNDERSCORE] ≠ 0%Z)
  = negb (startsWith top [UNDERSCORE]).
Proof.
  destruct (relative_head pl top rest) as (tail & -> & Htail).
  assert (starts_with [UNDERSCORE] (replace_separators (top ++ tail))
          = starts_with [UNDERSCORE] top) as Hhead.
  { destruct top as [|c top]; simpl.
    - destruct Htail as [-> | [tail' ->]]; [done|]. by destruct pl.
    - destruct (N.eqb_spec c SLASH) as [->|?]; [done|].
      destruct (N.eqb_spec c BACKSLASH) as [->|?]; done. }
  unfold startsWith. rewrite <- Hhead.
  destruct (starts_with _ _) eqn:Hs.
  - apply indexOf_zero in Hs. apply bool_decide_eq_false. by intros [].
  - apply bool_decide_eq_true. intros Hz%indexOf_zero. congruence.
Qed.

(** C10, as amended. The directories discovered below the source root
    are exactly those reached through directories none of whose names
    begins with [__]; a name that does not begin with [__], such as one
    with a single leading underscore, does not stop discovery; neither
    the destination [__dist] nor anything below it is ever discovered. A
    discovered directory is an internal feature, and once loaded a
    non-public one, exactly when the top-level name on its path begins
    with an underscore. *)
Theorem discovery_skips_reserved (ext : Externals) (fs : list entry) :
  (∀ d, d ∈ flattenPolyfillDirectories [] fs ↔
        directory_at fs d ∧ Forall (λ item, ¬ reserved item) d) ∧
  (∀ item, startsWith item (lit "__") = false ↔ ¬ reserved item) ∧
  (∀ d below, d ∈ flattenPolyfillDirectories [] fs → d ≠ destination ++ below) ∧
  (∀ top rest,
     startsWith
       (path_relative (new_Polyfill (top :: rest) (relative (platform ext) (top :: rest))))
       [UNDERSCORE] = startsWith top [UNDERSCORE] ∧
     ∀ p',
       build_polyfill ext fs
         (new_Polyfill (top :: rest) (relative (platform ext) (top :: rest))) = Ok p' →
       isPublic (config p') = Some (negb (startsWith top [UNDERSCORE]))).
Proof.
  assert (∀ d, d ∈ flattenPolyfillDirectories [] fs ↔
               directory_at fs d ∧ Forall (λ item, ¬ reserved item) d) as Hspec.
  { intros d. rewrite flatten_spec. split.
    - by intros (p & -> & ? & ?).
    - intros [? ?]. by exists d. }
  split_and!.
  - exact Hspec.
  - exact not_reserved_test.
  - intros d below [_ Hok]%Hspec ->. inversion Hok as [|? ? Hnot _]; subst.
    apply Hnot. by exists (lit "dist").
  - intros top rest. split; [apply internal_by_top|].
    intros p' (_ & _ & _ & ->)%build_polyfill_keeps. f_equal. apply public_by_top.
Qed.

(** C10 as stated fails: the directory [_b] inside [a] is discovered and
    built, and is a public feature that is not internal. *)
Lemma nested_underscore_is_public :
  [lit "a"; lit "_b"] ∈
    flattenPolyfillDirectories [] [Dir (lit "a") [Demo.feature "_b" "" "var b;"]] ∧
  ∃ p',
    build_polyfill Demo.ext [Dir (lit "a") [Demo.feature "_b" "" "var b;"]]
      (new_Polyfill [lit "a"; lit "_b"] (relative Posix [lit "a"; lit "_b"])) = Ok p' ∧
    name p' = lit "a._b" ∧
    isPublic (config p') = Some true ∧
    startsWith (path_relative p') [UNDERSCORE] = false.
Proof.
  split; [vm_compute; left|].
  eexists. split; [vm_compute; reflexivity|]. by vm_compute.
Qed.

(** A top-level directory with a single leading underscore is discovered,
    checked as an internal feature and built as a non-public one. *)
Example top_level_underscore_is_internal :
  flattenPolyfillDirectories [] [Demo.feature "_x" "browsers.chrome = '*'" "var x;"]
    = [[lit "_x"]] ∧
  ∃ p',
    build_polyfill Demo.ext [Demo.feature "_x" "browsers.chrome = '*'" "var x;"]
      (new_Polyfill [lit "_x"] (lit "_x")) = Ok p' ∧
    isPublic (config p') = Some false.
Proof.
  split; [vm_compute; reflexivity|].
  eexists. split; [vm_compute; reflexivity|]. by vm_compute.
Qed.

(** ** Directories without a config file *)

Lemma io_then_output {A B} (m : io A) (k : A → io B) (o : output) :
  o ∈ (io_then m k).1 → o ∈ m.1 ∨ ∃ a, m.2 = Ok a ∧ o ∈ (k a).1.
Proof.
  unfold io_then. destruct m as [t [a|e]]; simpl; [|by left].
  destruct (k a) as [t' r] eqn:Hk. simpl. intros [?|?]%elem_of_app; [by left|].
  right. exists a. by rewrite Hk.
Qed.

Lemma io_all_output (ext : Externals) (chains : list (output * io ())) (o : output) :
  o ∈ (io_all ext chains).1 →
  ∃ chain, chain ∈ chains ∧
           o ∈ (io_then (perform ext chain.1) (λ _, chain.2)).1.
Proof.
  unfold io_all, second_link, io_then, perform. simpl.
  intros [(chain & -> & Hchain)%list_elem_of_fmap
         | (chain & Ho & Hchain)%list_elem_of_bind]%elem_of_app;
    exists chain; (split; [done|]).
  - destruct (io_ok ext chain.1); [|by left]. destruct chain.2. by left.
  - destruct (io_ok ext chain.1); [|by apply elem_of_nil in Ho].
    destruct chain.2. by right.
Qed.

(** What a run may start on the destination tree. *)
Lemma run_outputs (ext : Externals) (fs : list entry) (o : output) :
  o ∈ (run ext fs).1 →
  o = MakeDirectory destination ∨
  (∃ index, o = WriteAliases (destination ++ [lit "aliases.json"]) index) ∨
  ∃ polyfills p,
    load_all ext fs = Ok polyfills ∧ p ∈ polyfills ∧ o ∈ (writeOutput ext destination p).1.
Proof.
  unfold run. intros [Ho | (polyfills & Hload & Ho)]%io_then_output.
  { by apply elem_of_nil in Ho. }
  simpl in Hload. unfold publish in Ho.
  apply io_then_output in Ho as [Ho | ([] & _ & Ho)]; [by apply elem_of_nil in Ho|].
  apply io_then_output in Ho as [Ho | ([] & _ & Ho)]; [by apply elem_of_nil in Ho|].
  apply io_then_output in Ho as [Ho | ([] & _ & Ho)].
  { left. by apply list_elem_of_singleton in Ho. }
  apply io_then_output in Ho as [Ho | ([] & _ & Ho)].
  { right. left. unfold writeAliasFile in Ho.
    destruct (alias_index polyfills) as [index|]; [|by apply elem_of_nil in Ho].
    exists index. by apply list_elem_of_singleton in Ho. }
  right. right. apply io_all_output in Ho as (m & Hm & Ho).
  apply list_elem_of_fmap in Hm as (p & -> & Hp). by exists polyfills, p.
Qed.

(** C9. A discovered directory without [config.toml] is not among the
    features the loading stage is run for, hence not among the loaded
    features that are validated and written: every operation a run starts
    on the destination tree is the creation of the destination, the
    alias index, or the output of a loaded feature of another directory;
    and when loading fails, the error is that of the chain of a directory
    that has a config file. *)
Theorem directory_without_config_is_skipped (ext : Externals) (fs : list entry)
    (d : list jsstring) :
  d ∈ flattenPolyfillDirectories [] fs →
  existsSync fs (d ++ [lit "config.toml"]) = false →
  (∀ p, p ∈ candidates ext fs → path_absolute p ≠ d) ∧
  (∀ polyfills p, load_all ext fs = Ok polyfills → p ∈ polyfills → path_absolute p ≠ d) ∧
  (∀ e, load_all ext fs = Err e →
     ∃ p, p ∈ candidates ext fs ∧ path_absolute p ≠ d ∧
          hasConfigFile fs p = true ∧ build_polyfill ext fs p = Err e) ∧
  (∀ o, o ∈ (run ext fs).1 →
     o = MakeDirectory destination ∨
     (∃ index, o = WriteAliases (destination ++ [lit "aliases.json"]) index) ∨
     ∃ polyfills p,
       load_all ext fs = Ok polyfills ∧ p ∈ polyfills ∧ path_absolute p ≠ d ∧
       o ∈ (writeOutput ext destination p).1).
Proof.
  intros _ Hnone.
  assert (∀ p, p ∈ candidates ext fs → path_absolute p ≠ d) as Hcandidates.
  { intros p (d' & _ & Hconfig & ->)%candidates_spec. simpl. intros ->. congruence. }
  assert (∀ polyfills p, load_all ext fs = Ok polyfills → p ∈ polyfills →
                         path_absolute p ≠ d) as Hloaded.
  { intros polyfills p Hload Hp.
    destruct (promise_all_from _ _ _ _ Hload Hp) as (q & Hq & Hbuild).
    apply build_polyfill_keeps in Hbuild as (_ & -> & _). by apply Hcandidates. }
  split_and!; [done | done | |].
  - intros e (p & Hp & Hbuild)%promise_all_error. exists p.
    split_and!; [done | by apply Hcandidates | | done].
    apply candidates_spec in Hp as (d' & _ & Hconfig & ->). exact Hconfig.
  - intros o [-> | [[index ->] | (polyfills & p & Hload & Hp & Ho)]]%run_outputs.
    + by left.
    + right. left. by exists index.
    + right. right. exists polyfills, p. split_and!; [done | done | | done].
      by eapply Hloaded.
Qed.

Lemma directory_without_config_is_skipped_witness :
  (∀ p, p ∈ candidates Demo.ext (Demo.foo_baz ++ [Dir (lit "docs") []]) →
        path_absolute p ≠ [lit "docs"]) ∧
  (∀ polyfills p,
     load_all Demo.ext (Demo.foo_baz ++ [Dir (lit "docs") []]) = Ok polyfills →
     p ∈ polyfills → path_absolute p ≠ [lit "docs"]) ∧
  (∀ e, load_all Demo.ext (Demo.foo_baz ++ [Dir (lit "docs") []]) = Err e →
     ∃ p, p ∈ candidates Demo.ext (Demo.foo_baz ++ [Dir (lit "docs") []]) ∧
          path_absolute p ≠ [lit "docs"] ∧
          hasConfigFile (Demo.foo_baz ++ [Dir (lit "docs") []]) p = true ∧
          build_polyfill Demo.ext (Demo.foo_baz ++ [Dir (lit "docs") []]) p = Err e) ∧
  (∀ o, o ∈ (run Demo.ext (Demo.foo_baz ++ [Dir (lit "docs") []])).1 →
     o = MakeDirectory destination ∨
     (∃ index, o = WriteAliases (destination ++ [lit "aliases.json"]) index) ∨
     ∃ polyfills p,
       load_all Demo.ext (Demo.foo_baz ++ [Dir (lit "docs") []]) = Ok polyfills ∧
       p ∈ polyfills ∧ path_absolute p ≠ [lit "docs"] ∧
       o ∈ (writeOutput Demo.ext destination p).1).
Proof.
  apply (directory_without_config_is_skipped Demo.ext
           (Demo.foo_baz ++ [Dir (lit "docs") []]) [lit "docs"]).
  - apply (bool_decide_unpack _). vm_compute. reflexivity.
  - vm_compute. reflexivity.
Defined.

(** The directory [docs] has no config file: the run is the run without it,
    and succeeds. *)
Example run_ignores_docs :
  run Demo.ext (Demo.foo_baz ++ [Dir (lit "docs") []]) = run Demo.ext Demo.foo_baz ∧
  (run Demo.ext Demo.foo_baz).2 = Ok ().
Proof. split; vm_compute; reflexivity. Qed.

(** ** Canonical names *)

Lemma dotted_no_separator (relative : jsstring) :
  (SLASH ∉ dotted relative) ∧ (BACKSLASH ∉ dotted relative).
Proof.
  unfold dotted. split; intros (c & Hc & _)%list_elem_of_fmap; case_bool_decide; naive_solver.
Qed.

Lemma find_entry_layout (n : jsstring) (items : list entry) :
  find_entry n (layout <$> items) = layout <$> find_entry n items.
Proof.
  induction items as [|e items IH]; [done|]. simpl.
  replace (entry_name (layout e)) with (entry_name e) by by destruct e.
  by case_bool_decide.
Qed.

Lemma resolve_layout (p : list jsstring) :
  ∀ items, resolve (layout <$> items) p = layout <$> resolve items p.
Proof.
  induction p as [|n p IH]; intros items; [done|].
  destruct p as [|n' p]; [apply find_entry_layout|].
  change (resolve (layout <$> items) (n :: n' :: p)) with
    (match find_entry n (layout <$> items) with
     | Some (Dir _ children) => resolve children (n' :: p)
     | _ => None
     end).
  change (resolve items (n :: n' :: p)) with
    (match find_entry n items with
     | Some (Dir _ children) => resolve children (n' :: p)
     | _ => None
     end).
  rewrite find_entry_layout.
  destruct (find_entry n items) as [[item contents | item children]|]; [done | | done].
  apply (IH children).
Qed.

Lemma existsSync_layout (fs : list entry) (p : list jsstring) :
  existsSync (layout <$> fs) p = existsSync fs p.
Proof. unfold existsSync. rewrite resolve_layout. by destruct (resolve fs p). Qed.

Lemma flatten_item_layout (e : entry) :
  ∀ directory, flatten_item directory (layout e) = flatten_item directory e.
Proof.
  induction e as [item contents | item children IH] using entry_nested_ind;
    intros directory; [done|].
  simpl. case_bool_decide; [|done]. f_equal.
  induction IH as [|c children Hc _ IHchildren]; [done|].
  rewrite fmap_cons, !bind_cons, Hc. by f_equal.
Qed.

Lemma flatten_layout (directory : list jsstring) (items : list entry) :
  flattenPolyfillDirectories directory (layout <$> items) =
  flattenPolyfillDirectories directory items.
Proof.
  unfold flattenPolyfillDirectories. induction items as [|e items IH]; [done|].
  by rewrite fmap_cons, !bind_cons, flatten_item_layout, IH.
Qed.

(** The candidate features are read off the layout and the platform. *)
Lemma candidates_layout (ext ext' : Externals) (fs : list entry) :
  platform ext' = platform ext →
  candidates ext' (layout <$> fs) = candidates ext fs.
Proof.
  intros Hpl. unfold candidates. rewrite flatten_layout, Hpl.
  apply list_filter_iff. intros p. unfold hasConfigFile.
  by rewrite existsSync_layout.
Qed.

Lemma load_all_names (ext : Externals) (fs : list entry) (polyfills : list Polyfill) :
  load_all ext fs = Ok polyfills → name <$> polyfills = name <$> candidates ext fs.
Proof.
  unfold load_all. generalize (candidates ext fs). intros l Hall%promise_all_inv.
  induction Hall as [|p p' l l' Hbuild _ IH]; [done|].
  apply build_polyfill_keeps in Hbuild as (Hname & _).
  by rewrite !fmap_cons, IH, Hname.
Qed.

(** C8. The name of a feature is set by the constructor to its relative
    path with every slash and backslash replaced by a dot, so that no
    separator is left in it; the features of a run are constructed from the
    relative paths of the discovered directories; no stage of the chain, nor
    the chain as a whole, changes the name or the path it was computed from;
    and the names of the candidate features, which are the names of the
    loaded features, are the same on every file system with the same
    layout of directories and file names. *)
Theorem canonical_name (ext : Externals) (fs : list entry) :
  (∀ absolute relative,
     name (new_Polyfill absolute relative) = dotted relative ∧
     (SLASH ∉ name (new_Polyfill absolute relative)) ∧
     (BACKSLASH ∉ name (new_Polyfill absolute relative))) ∧
  (∀ p, p ∈ candidates ext fs →
     path_absolute p ∈ flattenPolyfillDirectories [] fs ∧
     path_relative p = relative (platform ext) (path_absolute p) ∧
     name p = dotted (path_relative p)) ∧
  (∀ p p',
     loadConfig ext fs p = Ok p' ∨ loadSources ext fs p = Ok p' ∨
     updateConfig p = Ok p' ∨ build_polyfill ext fs p = Ok p' →
     name p' = name p ∧ path_relative p' = path_relative p) ∧
  (∀ polyfills, load_all ext fs = Ok polyfills →
     name <$> polyfills = name <$> candidates ext fs) ∧
  (∀ ext' fs', platform ext' = platform ext → layout <$> fs' = layout <$> fs →
     name <$> candidates ext' fs' = name <$> candidates ext fs).
Proof.
  split_and!.
  - intros absolute relative. simpl. rewrite replace_separators_dotted.
    split; [done | apply dotted_no_separator].
  - intros p (d & Hd & _ & ->)%candidates_spec. simpl.
    by rewrite replace_separators_dotted.
  - intros p p' [H | [H | [H | H]]].
    + by apply loadConfig_keeps in H as (? & _ & ? & _).
    + by apply loadSources_keeps in H as (? & _ & ? & _).
    + by apply updateConfig_keeps in H as (? & _ & ? & _).
    + by apply build_polyfill_keeps in H as (? & _ & ? & _).
  - apply load_all_names.
  - intros ext' fs' Hpl Hlayout.
    rewrite <- (candidates_layout ext' ext' fs' eq_refl),
            <- (candidates_layout ext ext fs eq_refl), Hlayout.
    unfold candidates. by rewrite Hpl.
Qed.

Lemma canonical_name_witness :
  (∀ p p',
     loadConfig Demo.ext Demo.foo_baz p = Ok p' ∨
     loadSources Demo.ext Demo.foo_baz p = Ok p' ∨
     updateConfig p = Ok p' ∨ build_polyfill Demo.ext Demo.foo_baz p = Ok p' →
     name p' = name p ∧ path_relative p' = path_relative p) ∧
  (name <$> candidates Demo.ext
              [Demo.feature "foo" "" "var foo = 1;"; Demo.feature "baz" "" ""])
  = (name <$> candidates Demo.ext Demo.foo_baz).
Proof.
  destruct (canonical_name Demo.ext Demo.foo_baz) as (_ & _ & Hkeeps & _ & Hlayout).
  split; [exact Hkeeps|].
  apply (Hlayout Demo.ext
           [Demo.feature "foo" "" "var foo = 1;"; Demo.feature "baz" "" ""]).
  - reflexivity.
  - vm_compute. reflexivity.
Defined.

(** The directory [Array/prototype/includes] on either platform. *)
Example name_of_nested_directory :
  name (new_Polyfill [lit "Array"; lit "prototype"; lit "includes"]
          (relative Posix [lit "Array"; lit "prototype"; lit "includes"]))
    = lit "Array.prototype.includes" ∧
  name (new_Polyfill [lit "Array"; lit "prototype"; lit "includes"]
          (relative Win32 [lit "Array"; lit "prototype"; lit "includes"]))
    = lit "Array.prototype.includes".
Proof. split; vm_compute; reflexivity. Qed.

(** * Further properties of the script *)

(** ** The two regular expressions *)

Lemma strip_trailing_whitespace_fixed (init : jsstring) (c : N) :
  is_whitespace c = false →
  strip_trailing_whitespace (init ++ [c]) = init ++ [c].
Proof.
  intros Hc. induction init as [|a init IH].
  - simpl. by rewrite Hc.
  - change ((a :: init) ++ [c]) with (a :: (init ++ [c])).
    assert (forallb is_whitespace (a :: init ++ [c]) = false) as Hall.
    { simpl. rewrite forallb_app. simpl. rewrite Hc.
      by rewrite andb_false_r, andb_false_r. }
    change (strip_trailing_whitespace (a :: init ++ [c])) with
      (if forallb is_whitespace (a :: init ++ [c]) then []
       else a :: strip_trailing_whitespace (init ++ [c])).
    by rewrite Hall, IH.
Qed.

(** The text of [detect.js] is cut where its trailing white space begins:
    what is cut is white space only, what is kept is empty or ends in a
    character that is not white space, and cutting again changes nothing. *)
Theorem strip_trailing_whitespace_cuts (s : jsstring) :
  (∃ tail, s = strip_trailing_whitespace s ++ tail ∧
           forallb is_whitespace tail = true) ∧
  (strip_trailing_whitespace s = [] ∨
   ∃ init c, strip_trailing_whitespace s = init ++ [c] ∧ is_whitespace c = false) ∧
  strip_trailing_whitespace (strip_trailing_whitespace s) = strip_trailing_whitespace s.
Proof.
  assert ((∃ tail, s = strip_trailing_whitespace s ++ tail ∧
                   forallb is_whitespace tail = true) ∧
          (strip_trailing_whitespace s = [] ∨
           ∃ init c, strip_trailing_whitespace s = init ++ [c] ∧
                     is_whitespace c = false)) as [Htail Hlast].
  { induction s as [|a s [(tail & Hs & Htail) Hlast]].
    - split; [by exists [] | by left].
    - change (strip_trailing_whitespace (a :: s)) with
        (if forallb is_whitespace (a :: s) then []
         else a :: strip_trailing_whitespace s).
      destruct (forallb is_whitespace (a :: s)) eqn:Hall.
      + split; [by exists (a :: s) | by left].
      + split.
        * exists tail. split; [|done]. simpl. by rewrite <- Hs.
        * right. destruct Hlast as [Hnil | (init & c & Hinit & Hc)].
          -- exists [], a. rewrite Hnil. split; [done|].
             rewrite Hnil in Hs. simpl in Hs, Hall. subst tail.
             rewrite Htail, andb_true_r in Hall. exact Hall.
          -- exists (a :: init), c. by rewrite Hinit. }
  split_and!; [done | done |].
  destruct Hlast as [-> | (init & c & -> & Hc)]; [done|].
  by apply strip_trailing_whitespace_fixed.
Qed.

Lemma strip_prefix_app (pat s rest : jsstring) :
  strip_prefix pat s = Some rest → s = pat ++ rest.
Proof.
  revert s. induction pat as [|a pat IH]; intros s; simpl.
  - by intros [= ->].
  - destruct s as [|b s]; [done|]. destruct (N.eqb_spec a b) as [->|]; [|done].
    intros H. by rewrite (IH s H).
Qed.

Lemma source_map_match_head (s : jsstring) (n : nat) :
  source_map_match s = Some n → ∃ rest, s = lit "//#" ++ rest.
Proof.
  unfold source_map_match.
  destruct (strip_prefix (lit "//#") s) as [rest|] eqn:Hrest; [|done].
  intros _. exists rest. by apply strip_prefix_app.
Qed.

Lemma occurs_in_tail (needle s : jsstring) (c : N) :
  occurs_in needle s → occurs_in needle (c :: s).
Proof. intros (before & after & ->). by exists (c :: before), after. Qed.

Lemma remove_source_map_lines_sublist (s : jsstring) :
  ∀ bol skip, remove_source_map_lines bol skip s `sublist_of` s.
Proof.
  induction s as [|c s IH]; intros bol skip; [constructor|]. simpl.
  destruct skip as [|k]; [|by apply sublist_cons].
  destruct (if bol then source_map_match (c :: s) else None) as [[|k]|];
    (by apply sublist_skip) || by apply sublist_cons.
Qed.

(** [removeSourceMaps] only deletes: each variant it returns is a
    subsequence of the variant it was given, and a variant in which the
    characters [//#] do not occur is returned as it is. *)
Theorem removeSourceMaps_only_deletes (source : Sources) :
  (src_raw (removeSourceMaps source) `sublist_of` src_raw source) ∧
  (src_min (removeSourceMaps source) `sublist_of` src_min source) ∧
  (¬ occurs_in (lit "//#") (src_raw source) →
     src_raw (removeSourceMaps source) = src_raw source) ∧
  (¬ occurs_in (lit "//#") (src_min source) →
     src_min (removeSourceMaps source) = src_min source).
Proof.
  assert (∀ s bol, ¬ occurs_in (lit "//#") s → remove_source_map_lines bol 0 s = s)
    as Hkeep.
  { induction s as [|c s IH]; intros bol Hno; [done|]. simpl.
    destruct (if bol then source_map_match (c :: s) else None) as [n|] eqn:Hmatch.
    - exfalso. destruct bol; [|done].
      apply source_map_match_head in Hmatch as [rest Hrest]. apply Hno.
      exists [], rest. by rewrite Hrest.
    - rewrite IH; [done|]. intros Hin. apply Hno. by apply occurs_in_tail. }
  unfold removeSourceMaps. simpl. split_and!.
  - apply remove_source_map_lines_sublist.
  - apply remove_source_map_lines_sublist.
  - apply Hkeep.
  - apply Hkeep.
Qed.

Lemma strip_prefix_self (pat rest : jsstring) : strip_prefix pat (pat ++ rest) = Some rest.
Proof. induction pat as [|a pat IH]; [done|]. simpl. by rewrite N.eqb_refl. Qed.

Lemma line_run_to_end (url rest : jsstring) :
  forallb (λ c, negb (is_line_terminator c)) url = true →
  (rest = [] ∨ ∃ t after, rest = t :: after ∧ is_line_terminator t = true) →
  line_run (url ++ rest) = length url.
Proof.
  intros Hurl Hrest. induction url as [|c url IH]; simpl in *.
  - destruct Hrest as [-> | (t & after & -> & Ht)]; [done|]. simpl. by rewrite Ht.
  - apply andb_true_iff in Hurl as [Hc Hurl]. apply negb_true_iff in Hc.
    by rewrite Hc, IH.
Qed.

Lemma source_map_match_line (w : N) (url rest : jsstring) :
  is_whitespace w = true → url ≠ [] →
  forallb (λ c, negb (is_line_terminator c)) url = true →
  (rest = [] ∨ ∃ t after, rest = t :: after ∧ is_line_terminator t = true) →
  source_map_match (lit "//#" ++ w :: lit "sourceMappingURL" ++ url ++ rest)
  = Some (length (lit "//#" ++ w :: lit "sourceMappingURL" ++ url)).
Proof.
  intros Hw Hne Hurl Hrest. unfold source_map_match.
  rewrite strip_prefix_self, Hw, strip_prefix_self, line_run_to_end by done.
  destruct url as [|c url]; [done|]. simpl. f_equal.
Qed.

Lemma remove_source_map_lines_skip (pre rest : jsstring) :
  ∀ bol,
    remove_source_map_lines bol (length pre) (pre ++ rest) =
    match last pre with
    | Some c => remove_source_map_lines (is_line_terminator c) 0 rest
    | None => remove_source_map_lines bol 0 rest
    end.
Proof.
  induction pre as [|a pre IH]; intros bol; [done|].
  simpl. rewrite IH. destruct pre as [|n pre]; [done|].
  change (last (a :: n :: pre)) with (last (n :: pre)).
  destruct (last (n :: pre)) eqn:Hlast; [done|]. by apply last_None in Hlast.
Qed.

(** A line that holds a source-map reference, [//#], one white-space
    character, [sourceMappingURL] and at least one more character, is
    deleted up to its line break, which stays; at the end of the text it is
    deleted whole. *)
Theorem source_map_line_is_dropped (w t : N) (url after : jsstring) :
  is_whitespace w = true → url ≠ [] →
  forallb (λ c, negb (is_line_terminator c)) url = true →
  is_line_terminator t = true →
  remove_source_map_lines true 0
    (lit "//#" ++ w :: lit "sourceMappingURL" ++ url ++ t :: after)
  = t :: remove_source_map_lines true 0 after ∧
  remove_source_map_lines true 0 (lit "//#" ++ w :: lit "sourceMappingURL" ++ url) = [].
Proof.
  intros Hw Hne Hurl Ht.
  assert (∀ rest,
    (rest = [] ∨ ∃ t after, rest = t :: after ∧ is_line_terminator t = true) →
    remove_source_map_lines true 0
      (lit "//#" ++ w :: lit "sourceMappingURL" ++ url ++ rest)
    = remove_source_map_lines false 0 rest) as Hdrop.
  { intros rest Hrest.
    pose proof (source_map_match_line w url rest Hw Hne Hurl Hrest) as Hmatch.
    destruct url as [|z u _] using rev_ind; [done|].
    rewrite forallb_app in Hurl. simpl in Hurl.
    apply andb_true_iff in Hurl as [_ Hz]. rewrite andb_true_r in Hz.
    apply negb_true_iff in Hz.
    remember (w :: lit "sourceMappingURL" ++ u ++ [z]) as m eqn:Hm.
    change (lit "//#") with [47; 47; 35] in *.
    replace ([47; 47; 35] ++ w :: lit "sourceMappingURL" ++ (u ++ [z]) ++ rest)
      with (47 :: ([47; 35] ++ m) ++ rest) in *
      by (subst m; simpl; by rewrite <- !app_assoc).
    cbn [remove_source_map_lines]. rewrite Hmatch.
    change (length ([47; 47; 35] ++ m)) with (S (length ([47; 35] ++ m))).
    cbv beta iota.
    rewrite remove_source_map_lines_skip.
    replace (last ([47; 35] ++ m)) with (Some z); [by rewrite Hz|].
    subst m. change ([47; 35] ++ w :: lit "sourceMappingURL" ++ u ++ [z])
      with (([47; 35] ++ w :: lit "sourceMappingURL" ++ u) ++ [z])
      || rewrite !app_comm_cons, !app_assoc.
    by rewrite last_snoc. }
  split.
  - rewrite Hdrop by (right; by exists t, after). simpl. by rewrite Ht.
  - rewrite <- (app_nil_r url) at 1. by rewrite Hdrop by (by left).
Qed.

Lemma source_map_line_is_dropped_witness :
  remove_source_map_lines true 0
    (lit "//#" ++ 32 :: lit "sourceMappingURL" ++ lit "=fetch.js.map" ++ LF :: lit "var a;")
  = LF :: remove_source_map_lines true 0 (lit "var a;") ∧
  remove_source_map_lines true 0
    (lit "//#" ++ 32 :: lit "sourceMappingURL" ++ lit "=fetch.js.map") = [].
Proof.
  apply (source_map_line_is_dropped 32 LF (lit "=fetch.js.map") (lit "var a;")).
  - reflexivity.
  - discriminate.
  - reflexivity.
  - reflexivity.
Defined.

(** ** Minifying and loading sources *)

(** Whenever [minifyPolyfill] returns, the raw variant is the header line
    of the feature followed by the source as it was read, with nothing
    after it but the line break of the branch without minification; and
    when minification is not disabled the source has passed the syntax
    check and the minified variant is what the minifier made of it. *)
Theorem minifyPolyfill_keeps_source (ext : Externals) (p : Polyfill)
    (source : jsstring) (s : Sources) :
  minifyPolyfill ext p source = Ok s →
  (∃ tail, src_raw s = LF :: lit "// " ++ name p ++ LF :: source ++ tail ∧
           (tail = [] ∨ tail = [LF])) ∧
  (minify_disabled (config p) = false →
     vm_script ext source = Ok () ∧ uglify_polyfill ext source = Ok (src_min s) ∧
     src_raw s = LF :: lit "// " ++ name p ++ LF :: source).
Proof.
  unfold minifyPolyfill, validateSource.
  destruct (minify_disabled (config p)).
  - intros [= <-]. simpl. split; [|done]. exists [LF]. split; [|by right].
    by rewrite <- !app_assoc.
  - destruct (vm_script ext source) as [[]|]; [simpl|done].
    destruct (uglify_polyfill ext source) as [minified|]; [simpl|done].
    intros [= <-]. simpl. split; [|done]. exists []. by rewrite app_nil_r; auto.
Qed.

Lemma minifyPolyfill_keeps_source_witness :
  (∃ tail,
     src_raw {| src_raw := LF :: lit "// foo" ++ LF :: lit "var foo;";
                src_min := lit "varfoo;" |}
       = LF :: lit "// " ++ name Demo.foo ++ LF :: lit "var foo;" ++ tail ∧
     (tail = [] ∨ tail = [LF])) ∧
  (minify_disabled (config Demo.foo) = false →
     vm_script Demo.ext (lit "var foo;") = Ok () ∧
     uglify_polyfill Demo.ext (lit "var foo;") =
       Ok (src_min {| src_raw := LF :: lit "// foo" ++ LF :: lit "var foo;";
                      src_min := lit "varfoo;" |}) ∧
     src_raw {| src_raw := LF :: lit "// foo" ++ LF :: lit "var foo;";
                src_min := lit "varfoo;" |}
       = LF :: lit "// " ++ name Demo.foo ++ LF :: lit "var foo;").
Proof.
  apply (minifyPolyfill_keeps_source Demo.ext Demo.foo (lit "var foo;")).
  vm_compute. reflexivity.
Defined.

(** A source that the syntax check refuses is reported, when minification
    is not disabled, as a parse error whose message names the feature and
    the path of its source file, whatever the minifier would do with it. *)
Theorem minifyPolyfill_parse_error (ext : Externals) (p : Polyfill)
    (source : jsstring) (e : error) :
  minify_disabled (config p) = false →
  vm_script ext source = Err e →
  ∃ message,
    minifyPolyfill ext p source = Err (Wrapped (Some (lit "Parse error")) message e) ∧
    occurs_in (name p) message ∧ occurs_in (render ext (sourcePath p)) message.
Proof.
  intros Hon Hvm. unfold minifyPolyfill, validateSource. rewrite Hon, Hvm. simpl.
  eexists. split_and!; [done | |].
  - occurs (lit "Error parsing source code for ")
           (lit " from " ++ render ext (sourcePath p)).
  - exists (lit "Error parsing source code for " ++ name p ++ lit " from "), [].
    by rewrite <- !app_assoc, app_nil_r.
Qed.

Lemma minifyPolyfill_parse_error_witness :
  ∃ message,
    minifyPolyfill Demo.strict Demo.foo (lit "var foo = (1;") =
      Err (Wrapped (Some (lit "Parse error")) message
             (Foreign (lit "SyntaxError: Unexpected token"))) ∧
    occurs_in (name Demo.foo) message ∧
    occurs_in (render Demo.strict (sourcePath Demo.foo)) message.
Proof.
  apply (minifyPolyfill_parse_error Demo.strict Demo.foo (lit "var foo = (1;")).
  - reflexivity.
  - reflexivity.
Defined.

(** Every failure of [loadSources] is reported as an error of minifying the
    feature: also a source file that cannot be read, whose "Invalid source"
    error becomes the cause. On success the sources are those of
    [minifyPolyfill] after [removeSourceMaps], and the config is untouched. *)
Theorem loadSources_outcomes (ext : Externals) (fs : list entry) (p : Polyfill) :
  (∀ e, loadSources ext fs p = Err e →
     ∃ cause, e = Wrapped None (lit "Error minifying " ++ name p) cause) ∧
  (∀ e, readFile fs (sourcePath p) = Err e →
     loadSources ext fs p =
     Err (Wrapped None (lit "Error minifying " ++ name p)
            (Wrapped (Some (lit "Invalid source"))
               (lit "Unable to read source from " ++ render ext (sourcePath p)) e))) ∧
  (∀ p', loadSources ext fs p = Ok p' →
     ∃ raw s, readFile fs (sourcePath p) = Ok raw ∧ minifyPolyfill ext p raw = Ok s ∧
              sources p' = Some (removeSourceMaps s) ∧ config p' = config p ∧
              name p' = name p).
Proof.
  unfold loadSources. split_and!.
  - intros e.
    destruct (match readFile fs (sourcePath p) with Ok raw => _ | Err e0 => _ end);
      [done|]. intros [= <-]. by eexists.
  - intros e ->. done.
  - intros p'. destruct (readFile fs (sourcePath p)) as [raw|]; [|done].
    destruct (minifyPolyfill ext p raw) as [s|] eqn:Hs; [|done].
    intros [= <-]. by exists raw, s.
Qed.

(** ** Loading the config *)

Lemma load_detect_inv (ext : Externals) (fs : list entry) (p : Polyfill) (c c' : Config) :
  load_detect ext fs p c = Ok c' →
  (existsSync fs (detectPath p) = false ∧ c' = c) ∨
  (existsSync fs (detectPath p) = true ∧
   ∃ text detect,
     readFile fs (detectPath p) = Ok text ∧
     minifyDetect ext (set_config c p) (strip_trailing_whitespace text) = Ok detect ∧
     vm_script ext (lit "if (" ++ src_min detect ++ lit ") true;") = Ok () ∧
     c' = set_detectSource (src_min detect) c).
Proof.
  unfold load_detect. destruct (existsSync fs (detectPath p)).
  2: { intros [= <-]. by left. }
  destruct (readFile fs (detectPath p)) as [text|]; [simpl|done].
  destruct (minifyDetect ext _ _) as [detect|] eqn:Hdetect; [simpl|done].
  unfold validateSource.
  destruct (vm_script ext _) as [[]|] eqn:Hvm; [simpl|done].
  intros [= <-]. right. split; [done|]. by exists text, detect.
Qed.

Lemma loadConfig_inv (ext : Externals) (fs : list entry) (p p' : Polyfill) :
  loadConfig ext fs p = Ok p' →
  ∃ data c c',
    readFile fs (configPath p) = Ok data ∧ toml_parse ext data = Ok c ∧
    check_internal ext p c = Ok () ∧ licence c = None ∧
    load_detect ext fs p
      (set_flags (existsSync fs (path_absolute p ++ [lit "tests.js"]))
         (negb (ci_disabled c))
         (bool_decide (indexOf (name p) [UNDERSCORE] ≠ 0%Z))
         (set_baseDir (path_relative p) (set_detectSource [] c))) = Ok c' ∧
    p' = set_config c' p.
Proof.
  unfold loadConfig. destruct (readFile fs (configPath p)) as [data|]; [|done].
  destruct (toml_parse ext data) as [c|] eqn:Hparse; [simpl|done].
  destruct (check_internal ext p c) as [[]|] eqn:Hinternal; [simpl|done].
  destruct (licence c) eqn:Hlicence; [done|].
  destruct (load_detect ext fs p _) as [c'|] eqn:Hdetect; [simpl|done].
  intros [= <-]. by exists data, c, c'.
Qed.

(** A config that [loadConfig] returns has the keys of the parsed file as
    they were, has no key [licence], and has the derived keys set from the
    directory: [baseDir] is the relative path, [hasTests] tells whether
    [tests.js] exists, [isTestable] is false only when the file sets
    [test.ci] to [false]. *)
Theorem loadConfig_derives (ext : Externals) (fs : list entry) (p p' : Polyfill) :
  loadConfig ext fs p = Ok p' →
  ∃ data c,
    readFile fs (configPath p) = Ok data ∧ toml_parse ext data = Ok c ∧
    config_aliases (config p') = config_aliases c ∧
    config_dependencies (config p') = config_dependencies c ∧
    license (config p') = license c ∧ browsers (config p') = browsers c ∧
    build (config p') = build c ∧ test (config p') = test c ∧
    licence (config p') = None ∧
    baseDir (config p') = Some (path_relative p) ∧
    hasTests (config p') = Some (existsSync fs (path_absolute p ++ [lit "tests.js"])) ∧
    isTestable (config p') =
      Some (negb match test c with
                 | Some t => bool_decide (ci t = Some false)
                 | None => false
                 end).
Proof.
  intros (data & c & c' & Hread & Hparse & _ & Hlicence & Hdetect & ->)%loadConfig_inv.
  exists data, c. split; [done|]. split; [done|].
  apply load_detect_inv in Hdetect
    as [[_ ->] | (_ & text & detect & _ & _ & _ & ->)]; simpl; by rewrite Hlicence.
Qed.

Lemma loadConfig_derives_witness :
  ∃ p',
    loadConfig Demo.ext Demo.fetch (new_Polyfill [lit "fetch"] (lit "fetch")) = Ok p' ∧
    ∃ data c,
      readFile Demo.fetch (configPath (new_Polyfill [lit "fetch"] (lit "fetch"))) = Ok data ∧
      toml_parse Demo.ext data = Ok c ∧
      config_aliases (config p') = config_aliases c ∧
      config_dependencies (config p') = config_dependencies c ∧
      license (config p') = license c ∧ browsers (config p') = browsers c ∧
      build (config p') = build c ∧ test (config p') = test c ∧
      licence (config p') = None ∧
      baseDir (config p') = Some (path_relative (new_Polyfill [lit "fetch"] (lit "fetch"))) ∧
      hasTests (config p') =
        Some (existsSync Demo.fetch
                (path_absolute (new_Polyfill [lit "fetch"] (lit "fetch")) ++ [lit "tests.js"])) ∧
      isTestable (config p') =
        Some (negb match test c with
                   | Some t => bool_decide (ci t = Some false)
                   | None => false
                   end).
Proof.
  eexists. split; [vm_compute; reflexivity|].
  apply (loadConfig_derives Demo.ext Demo.fetch (new_Polyfill [lit "fetch"] (lit "fetch"))).
  vm_compute. reflexivity.
Defined.

(** An internal feature, one whose relative path begins with an underscore,
    is only loaded when its browser table gives [*] for every supported
    browser. *)
Theorem internal_feature_targets_all (ext : Externals) (fs : list entry)
    (p p' : Polyfill) (browser : jsstring) :
  loadConfig ext fs p = Ok p' →
  startsWith (path_relative p) [UNDERSCORE] = true →
  browser ∈ baselines ext →
  ∃ table, browsers (config p') = Some table ∧ table_get browser table = Some (lit "*").
Proof.
  intros (data & c & c' & _ & _ & Hinternal & _ & Hdetect & ->)%loadConfig_inv
    Hunder Hbrowser.
  simpl. assert (browsers c' = browsers c) as ->.
  { by apply load_detect_inv in Hdetect
      as [[_ ->] | (_ & text & detect & _ & _ & _ & ->)]. }
  revert Hinternal. unfold check_internal, targets_all_browsers. rewrite Hunder.
  destruct (baselines ext) as [|b bs] eqn:Hbase; [by apply elem_of_nil in Hbrowser|].
  destruct (browsers c) as [table|]; [|done].
  destruct (forallb (λ browser, bool_decide (table_get browser table = Some (lit "*")))
              (b :: bs)) eqn:Hall; [|done]. intros _.
  exists table. split; [done|].
  rewrite forallb_forall in Hall. apply list_elem_of_In in Hbrowser.
  specialize (Hall browser Hbrowser). by apply bool_decide_eq_true in Hall.
Qed.

Lemma internal_feature_targets_all_witness :
  ∃ p',
    loadConfig Demo.ext Demo.internal (new_Polyfill [lit "_x"] (lit "_x")) = Ok p' ∧
    ∃ table, browsers (config p') = Some table ∧
             table_get (lit "chrome") table = Some (lit "*").
Proof.
  eexists. split; [vm_compute; reflexivity|].
  apply (internal_feature_targets_all Demo.ext Demo.internal
           (new_Polyfill [lit "_x"] (lit "_x"))).
  - vm_compute. reflexivity.
  - reflexivity.
  - left.
Defined.

(** The detection snippet of a loaded config: empty when the directory has
    no [detect.js]; otherwise made from the text of [detect.js] without its
    trailing white space, and such that [if (<snippet>) true;] passes the
    syntax check. Without minification it is that text and a line break;
    with minification it is what the minifier made of that text, which
    itself passed the syntax check. *)
Theorem loadConfig_detectSource (ext : Externals) (fs : list entry) (p p' : Polyfill) :
  loadConfig ext fs p = Ok p' →
  (existsSync fs (detectPath p) = false ∧ detectSource (config p') = Some []) ∨
  (∃ text snippet,
     readFile fs (detectPath p) = Ok text ∧
     detectSource (config p') = Some snippet ∧
     vm_script ext (lit "if (" ++ snippet ++ lit ") true;") = Ok () ∧
     (if minify_disabled (config p')
      then snippet = strip_trailing_whitespace text ++ [LF]
      else vm_script ext (strip_trailing_whitespace text) = Ok () ∧
           uglify_detect ext (strip_trailing_whitespace text) = Ok snippet)).
Proof.
  intros (data & c & c' & _ & _ & _ & _ & Hdetect & ->)%loadConfig_inv.
  apply load_detect_inv in Hdetect
    as [[Hnone ->] | (_ & text & detect & Hread & Hminify & Hvalid & ->)].
  { by left. }
  right. exists text, (src_min detect). split_and!; [done..|].
  revert Hminify. unfold minifyDetect, validateSource, minify_disabled. simpl.
  destruct (match build c with Some b => _ | None => false end).
  - by intros [= <-].
  - destruct (vm_script ext (strip_trailing_whitespace text)) as [[]|]; [simpl|done].
    destruct (uglify_detect ext _) as [minified|]; [simpl|done].
    by intros [= <-].
Qed.

Lemma loadConfig_detectSource_witness :
  ∃ p',
    loadConfig Demo.ext Demo.fetch (new_Polyfill [lit "fetch"] (lit "fetch")) = Ok p' ∧
    ((existsSync Demo.fetch (detectPath (new_Polyfill [lit "fetch"] (lit "fetch"))) = false ∧
      detectSource (config p') = Some []) ∨
     (∃ text snippet,
        readFile Demo.fetch (detectPath (new_Polyfill [lit "fetch"] (lit "fetch"))) = Ok text ∧
        detectSource (config p') = Some snippet ∧
        vm_script Demo.ext (lit "if (" ++ snippet ++ lit ") true;") = Ok () ∧
        (if minify_disabled (config p')
         then snippet = strip_trailing_whitespace text ++ [LF]
         else vm_script Demo.ext (strip_trailing_whitespace text) = Ok () ∧
              uglify_detect Demo.ext (strip_trailing_whitespace text) = Ok snippet))).
Proof.
  eexists. split; [vm_compute; reflexivity|].
  apply (loadConfig_detectSource Demo.ext Demo.fetch
           (new_Polyfill [lit "fetch"] (lit "fetch"))).
  vm_compute. reflexivity.
Defined.

(** ** The two checks of the dependency graph *)

Lemma for_each_ok_iff {A} (body : A → result ()) (l : list A) :
  for_each body l = Ok () ↔ ∀ x, x ∈ l → body x = Ok ().
Proof.
  split; [|apply for_each_all_ok].
  induction l as [|a l IH]; intros H x Hx; [by apply elem_of_nil in Hx|].
  simpl in H. destruct (body a) as [[]|] eqn:Ha; [|done].
  apply elem_of_cons in Hx as [-> | Hx]; [done | by apply IH].
Qed.

(** The existence check passes exactly when every dependency of every
    feature is the name of one of the features. *)
Theorem checkDependenciesExist_passes_iff (polyfills : list Polyfill) :
  checkDependenciesExist polyfills = Ok () ↔
  ∀ polyfill dependency,
    polyfill ∈ polyfills → dependency ∈ dependencies polyfill →
    ∃ provider, provider ∈ polyfills ∧ name provider = dependency.
Proof.
  unfold checkDependenciesExist. rewrite for_each_ok_iff.
  split.
  - intros H p d Hp Hd. specialize (H p Hp). rewrite for_each_ok_iff in H.
    specialize (H d Hd). simpl in H.
    destruct (existsb _ polyfills) eqn:Hex; [|done].
    apply existsb_exists in Hex as (q & Hq & Hname).
    exists q. split; [by apply list_elem_of_In|].
    by apply bool_decide_eq_true in Hname.
  - intros H p Hp. apply for_each_ok_iff. intros d Hd.
    destruct (H p d Hp Hd) as (q & Hq & Hname).
    replace (existsb (λ polyfill', bool_decide (d = name polyfill')) polyfills)
      with true; [done|].
    symmetry. apply existsb_exists. exists q.
    split; [by apply list_elem_of_In | by apply bool_decide_eq_true].
Qed.

Lemma dependency_graph_edge (polyfills : list Polyfill) (a b : jsstring) :
  (a, b) ∈ dependency_graph polyfills ↔
  ∃ polyfill, polyfill ∈ polyfills ∧ name polyfill = b ∧ a ∈ dependencies polyfill.
Proof.
  unfold dependency_graph. rewrite list_elem_of_bind. split.
  - intros (p & (d & [= -> ->] & Hd)%list_elem_of_fmap & Hp). by exists p.
  - intros (p & Hp & <- & Ha). exists p. split; [|done].
    apply list_elem_of_fmap. by exists a.
Qed.

(** Along the edges of the dependency graph one only arrives at features:
    whatever is reached is the name of a feature, and whatever one starts
    from is a declared dependency. A dependency that names no feature is
    therefore on no circle. *)
Theorem circle_runs_through_features (polyfills : list Polyfill) (a b : jsstring) :
  reaches (dependency_graph polyfills) a b →
  (∃ dependent, dependent ∈ polyfills ∧ a ∈ dependencies dependent) ∧
  (∃ polyfill, polyfill ∈ polyfills ∧ name polyfill = b) ∧
  (a = b → ¬ is_missing polyfills a).
Proof.
  intros Hreach.
  assert ((∃ dependent, dependent ∈ polyfills ∧ a ∈ dependencies dependent) ∧
          (∃ polyfill, polyfill ∈ polyfills ∧ name polyfill = b)) as [Hfrom Hto].
  { induction Hreach as [a b Hab | a b c Hab _ [_ Hto]].
    - apply dependency_graph_edge in Hab as (p & Hp & Hname & Ha).
      split; by exists p.
    - apply dependency_graph_edge in Hab as (p & Hp & Hname & Ha).
      split; [by exists p | done]. }
  split_and!; [done..|].
  intros -> Hmissing. destruct Hto as (p & Hp & Hname). by apply (Hmissing p).
Qed.

Lemma circle_runs_through_features_witness :
  (∃ dependent, dependent ∈ [Demo.a_needs_b; Demo.b_needs_a] ∧
                lit "A" ∈ dependencies dependent) ∧
  (∃ polyfill, polyfill ∈ [Demo.a_needs_b; Demo.b_needs_a] ∧ name polyfill = lit "A") ∧
  (lit "A" = lit "A" → ¬ is_missing [Demo.a_needs_b; Demo.b_needs_a] (lit "A")).
Proof.
  apply (circle_runs_through_features [Demo.a_needs_b; Demo.b_needs_a] (lit "A") (lit "A")).
  apply reaches_step with (lit "B").
  - vm_compute. right. left.
  - apply reaches_edge. vm_compute. left.
Defined.

(** Two features that depend on each other, or one feature that depends on
    itself, make the circle check reject the run, with any [toposort] that
    reports circles. *)
Theorem mutual_dependency_is_rejected (ext : Externals) (polyfills : list Polyfill)
    (p q : Polyfill) :
  detects_cycles ext →
  p ∈ polyfills → q ∈ polyfills →
  name q ∈ dependencies p → name p ∈ dependencies q →
  ∃ error,
    checkForCircularDependencies ext polyfills = Err (Rejected (circle_message ++ error)) ∧
    publish ext polyfills = ([], Err (Rejected (circle_message ++ error))).
Proof.
  intros Hdetects Hp Hq Hpq Hqp.
  destruct (Hdetects (dependency_graph polyfills)) as [error Herror].
  { exists (name p). apply reaches_step with (name q).
    - apply dependency_graph_edge. by exists q.
    - apply reaches_edge. apply dependency_graph_edge. by exists p. }
  exists error.
  assert (checkForCircularDependencies ext polyfills
          = Err (Rejected (circle_message ++ error))) as Hcheck.
  { unfold checkForCircularDependencies. by rewrite Herror. }
  split; [done|]. unfold publish. by rewrite Hcheck.
Qed.

Lemma mutual_dependency_is_rejected_witness :
  ∃ error,
    checkForCircularDependencies Demo.ext [Demo.a_needs_b; Demo.b_needs_a]
      = Err (Rejected (circle_message ++ error)) ∧
    publish Demo.ext [Demo.a_needs_b; Demo.b_needs_a]
      = ([], Err (Rejected (circle_message ++ error))).
Proof.
  apply (mutual_dependency_is_rejected Demo.ext [Demo.a_needs_b; Demo.b_needs_a]
           Demo.a_needs_b Demo.b_needs_a).
  - exact DemoFacts.kahn_detects.
  - left.
  - right. left.
  - left.
  - left.
Defined.

(** ** The alias index, continued *)
Lemma add_alias_outcome (polyfill : Polyfill) (index : gmap jsstring (list jsstring))
    (alias : jsstring) :
  no_inherited_key index →
  (alias ∈ object_prototype_keys ∧ add_alias polyfill index alias = Err TypeError) ∨
  ((alias ∉ object_prototype_keys) ∧
   ∃ index', add_alias polyfill index alias = Ok index' ∧ no_inherited_key index').
Proof.
  intros Hkeys. unfold add_alias, get_property.
  destruct (decide (alias ∈ object_prototype_keys)) as [Hin | Hout].
  - left. split; [done|]. by rewrite (Hkeys alias Hin), bool_decide_eq_true_2.
  - right. split; [done|].
    destruct (index !! alias) as [l|]; [|rewrite bool_decide_eq_false_2 by done];
      (eexists; split; [done|]); intros a Ha;
      (rewrite lookup_insert_ne; [by apply Hkeys | by intros ->]).
Qed.

Lemma add_aliases_outcome (polyfill : Polyfill) (declared : list jsstring) :
  ∀ index, no_inherited_key index →
  ((∃ alias, alias ∈ declared ∧ alias ∈ object_prototype_keys) ∧
   fold_each (add_alias polyfill) index declared = Err TypeError) ∨
  ((∀ alias, alias ∈ declared → alias ∉ object_prototype_keys) ∧
   ∃ index', fold_each (add_alias polyfill) index declared = Ok index' ∧
             no_inherited_key index').
Proof.
  induction declared as [|alias declared IH]; intros index Hkeys.
  - right. split; [by intros ? ?%elem_of_nil | by exists index].
  - rewrite fold_each_cons.
    destruct (add_alias_outcome polyfill index alias Hkeys)
      as [[Hin ->] | (Hout & index1 & -> & Hkeys1)].
    + left. split; [|done]. exists alias. split; [by left | done].
    + destruct (IH index1 Hkeys1) as [[(a & Ha & Hin) Herr] | (Hnone & index2 & Hok & Hkeys2)].
      * left. split; [|done]. exists a. split; [by right | done].
      * right. split; [|by exists index2].
        intros a [-> | Ha]%elem_of_cons; [done | by apply Hnone].
Qed.

Lemma alias_index_outcome (polyfills : list Polyfill) :
  ∀ index, no_inherited_key index →
  ((∃ polyfill alias, polyfill ∈ polyfills ∧ alias ∈ aliases polyfill ∧
                      alias ∈ object_prototype_keys) ∧
   fold_each (λ index polyfill, fold_each (add_alias polyfill) index (aliases polyfill))
     index polyfills = Err TypeError) ∨
  ((∀ polyfill alias, polyfill ∈ polyfills → alias ∈ aliases polyfill →
                      alias ∉ object_prototype_keys) ∧
   ∃ index',
     fold_each (λ index polyfill, fold_each (add_alias polyfill) index (aliases polyfill))
       index polyfills = Ok index').
Proof.
  induction polyfills as [|polyfill polyfills IH]; intros index Hkeys.
  - right. split; [by intros ? ? ?%elem_of_nil | by exists index].
  - rewrite fold_each_cons.
    destruct (add_aliases_outcome polyfill (aliases polyfill) index Hkeys)
      as [[(a & Ha & Hin) ->] | (Hnone & index1 & -> & Hkeys1)].
    + left. split; [|done]. exists polyfill, a. split_and!; [by left | done..].
    + destruct (IH index1 Hkeys1)
        as [[(q & a & Hq & Ha & Hin) Herr] | (Hnone' & index2 & Hok)].
      * left. split; [|done]. exists q, a. split_and!; [by right | done..].
      * right. split; [|by exists index2].
        intros q a [-> | Hq]%elem_of_cons Ha; [by apply Hnone | by eapply Hnone'].
Qed.

(** Building the alias index fails exactly when some alias of some feature
    is a property name that an object literal inherits, such as
    [constructor] or [toString]; the failure is a [TypeError], and
    [writeAliasFile] then writes nothing. *)
Theorem alias_index_fails_iff (polyfills : list Polyfill) :
  ((∃ e, alias_index polyfills = Err e) ↔
   ∃ polyfill alias, polyfill ∈ polyfills ∧ alias ∈ aliases polyfill ∧
                     alias ∈ object_prototype_keys) ∧
  (∀ e, alias_index polyfills = Err e →
     e = TypeError ∧
     ∀ ext directory, writeAliasFile ext polyfills directory = ([], Err TypeError)).
Proof.
  unfold writeAliasFile, alias_index.
  destruct (alias_index_outcome polyfills ∅)
    as [[Hsome ->] | (Hnone & index & ->)].
  { intros a _. apply lookup_empty. }
  - split; [by split; eauto|]. by intros e [= <-].
  - split; [|done]. split; [by intros [? ?]|].
    intros (p & a & Hp & Ha & Hin). by destruct (Hnone p a Hp Ha).
Qed.

(** The keys of a written alias index are the aliases of the features,
    [all] included; each key lists at least one name, and every name listed
    under a key is the name of a feature that has this alias. Without
    features the index is empty. *)
Theorem alias_index_keys (polyfills : list Polyfill)
    (index : gmap jsstring (list jsstring)) :
  alias_index polyfills = Ok index →
  (∀ alias, is_Some (index !! alias) ↔
            ∃ polyfill, polyfill ∈ polyfills ∧ alias ∈ aliases polyfill) ∧
  (∀ alias l n, index !! alias = Some l →
     l ≠ [] ∧
     (n ∈ l ↔ ∃ polyfill, polyfill ∈ polyfills ∧ alias ∈ aliases polyfill ∧
                          name polyfill = n)) ∧
  (polyfills = [] → index = ∅).
Proof.
  intros Hindex.
  assert (∀ alias, index !! alias = as_entry (listed_under alias polyfills)) as Hlookup.
  { destruct (alias_index_outcome polyfills ∅) as [[_ Herr] | [Hnone _]].
    { intros a _. apply lookup_empty. }
    { unfold alias_index in Hindex. congruence. }
    destruct (alias_index_extends polyfills Hnone
                (∅ : gmap jsstring (list jsstring)) (λ _, [])) as (index' & Hok & Hlookup).
    { intros a. apply lookup_empty. }
    unfold alias_index in Hindex. rewrite Hok in Hindex. injection Hindex as <-.
    exact Hlookup. }
  assert (∀ alias n, n ∈ listed_under alias polyfills ↔
                     ∃ polyfill, polyfill ∈ polyfills ∧ alias ∈ aliases polyfill ∧
                                 name polyfill = n) as Hlisted.
  { intros alias n. unfold listed_under. rewrite list_elem_of_bind. split.
    - intros (p & (a & Hn & Ha)%list_elem_of_bind & Hp).
      case_bool_decide; [|by apply elem_of_nil in Hn].
      apply list_elem_of_singleton in Hn. subst. by exists p.
    - intros (p & Hp & Ha & <-). exists p. split; [|done].
      apply list_elem_of_bind. exists alias. split; [|done].
      rewrite bool_decide_eq_true_2 by done. by left. }
  split_and!.
  - intros alias. rewrite Hlookup. split.
    + intros [l Hl]. destruct (listed_under alias polyfills) as [|n l'] eqn:Hl'; [done|].
      destruct (proj1 (Hlisted alias n)) as (p & Hp & Ha & _);
        [rewrite Hl'; by left | by exists p].
    + intros (p & Hp & Ha).
      assert (name p ∈ listed_under alias polyfills) as Hin
        by (apply Hlisted; by exists p).
      destruct (listed_under alias polyfills); [by apply elem_of_nil in Hin | done].
  - intros alias l n. rewrite Hlookup. intros Hl.
    destruct (listed_under alias polyfills) as [|n' l'] eqn:Hl'; [done|].
    injection Hl as <-. split; [done|]. rewrite <- Hl'. apply Hlisted.
  - intros ->. apply map_eq. intros alias. by rewrite Hlookup, lookup_empty.
Qed.

Lemma alias_index_keys_witness :
  (∀ alias,
     is_Some (({[ lit "all" := [lit "foo"; lit "baz"]; lit "bar" := [lit "foo"] ]}
               : gmap jsstring (list jsstring)) !! alias) ↔
     ∃ polyfill, polyfill ∈ [Demo.foo; Demo.baz] ∧ alias ∈ aliases polyfill) ∧
  (∀ alias l n,
     ({[ lit "all" := [lit "foo"; lit "baz"]; lit "bar" := [lit "foo"] ]}
      : gmap jsstring (list jsstring)) !! alias = Some l →
     l ≠ [] ∧
     (n ∈ l ↔ ∃ polyfill, polyfill ∈ [Demo.foo; Demo.baz] ∧ alias ∈ aliases polyfill ∧
                          name polyfill = n)) ∧
  ([Demo.foo; Demo.baz] = [] →
   ({[ lit "all" := [lit "foo"; lit "baz"]; lit "bar" := [lit "foo"] ]}
    : gmap jsstring (list jsstring)) = ∅).
Proof.
  apply (alias_index_keys [Demo.foo; Demo.baz]).
  vm_compute. reflexivity.
Defined.

(** ** Writing the output *)

Lemma first_rejection_ok_iff (l : list (result ())) :
  first_rejection l = Ok () ↔ ∀ r, r ∈ l → r = Ok ().
Proof.
  induction l as [|[[]|e] l IH]; simpl.
  - split; [by intros _ ? ?%elem_of_nil | done].
  - rewrite IH. split.
    + intros H r [-> | Hr]%elem_of_cons; [done | by apply H].
    + intros H r Hr. apply H. by right.
  - split; [done|]. intros H. by specialize (H (Err e) (list_elem_of_here _ _)).
Qed.

Lemma perform_all_ok_iff (ext : Externals) (ops : list output) :
  (perform_all ext ops).2 = Ok () ↔ ∀ o, o ∈ ops → io_ok ext o = true.
Proof.
  unfold perform_all. simpl. rewrite first_rejection_ok_iff. split.
  - intros H o Ho.
    specialize (H _ (list_elem_of_fmap_2 (λ o, (perform ext o).2) _ _ Ho)).
    unfold perform in H. simpl in H. by destruct (io_ok ext o).
  - intros H r (o & -> & Ho)%list_elem_of_fmap. unfold perform. simpl.
    by rewrite (H o Ho).
Qed.

Lemma writeOutput_cases (ext : Externals) (root : list jsstring) (p : Polyfill)
    (s : Sources) :
  sources p = Some s →
  (io_ok ext (MakeDirectory (path_join root (name p))) = false →
     writeOutput ext root p =
       ([MakeDirectory (path_join root (name p))],
        Err (FsError (path_join root (name p))))) ∧
  (io_ok ext (MakeDirectory (path_join root (name p))) = true →
     (writeOutput ext root p).1 = feature_outputs root p s ∧
     ((writeOutput ext root p).2 = Ok () ↔
      ∀ o, o ∈ feature_outputs root p s → io_ok ext o = true)).
Proof.
  intros Hs. unfold writeOutput, writeOutput_links, io_then. rewrite Hs.
  unfold perform at 1. simpl. split.
  - intros ->. done.
  - intros Hdir. rewrite Hdir.
    pose proof (perform_all_ok_iff ext (feature_files root p s)) as Hok.
    unfold perform_all, feature_files in Hok. unfold perform_all. simpl in *.
    split; [done|]. rewrite Hok. unfold feature_outputs, feature_files. split.
    + intros H o [-> | Ho]%elem_of_cons; [done | by apply H].
    + intros H o Ho. apply H. by right.
Qed.

(** [writeOutput] starts by creating the directory of the feature below the
    root. When that fails, no file is written. When it succeeds, the three
    files [meta.json], [raw.js] and [min.js] are all started in that
    directory, holding the config and the two variants, and the outcome is
    success exactly when each of the three writes succeeds. *)
Theorem writeOutput_outcomes (ext : Externals) (root : list jsstring) (p : Polyfill)
    (s : Sources) :
  sources p = Some s →
  (io_ok ext (MakeDirectory (path_join root (name p))) = false →
     writeOutput ext root p =
       ([MakeDirectory (path_join root (name p))], Err (FsError (path_join root (name p))))) ∧
  (io_ok ext (MakeDirectory (path_join root (name p))) = true →
     (writeOutput ext root p).1 = feature_outputs root p s ∧
     ((writeOutput ext root p).2 = Ok () ↔
      ∀ o, o ∈ feature_outputs root p s → io_ok ext o = true)).
Proof. apply writeOutput_cases. Qed.

Lemma writeOutput_outcomes_witness :
  (io_ok Demo.ext (MakeDirectory (path_join destination (name Demo.foo))) = false →
     writeOutput Demo.ext destination
       (set_sources {| src_raw := lit "// foo"; src_min := lit "foo" |} Demo.foo) =
       ([MakeDirectory (path_join destination (name Demo.foo))],
        Err (FsError (path_join destination (name Demo.foo))))) ∧
  (io_ok Demo.ext (MakeDirectory (path_join destination (name Demo.foo))) = true →
     (writeOutput Demo.ext destination
        (set_sources {| src_raw := lit "// foo"; src_min := lit "foo" |} Demo.foo)).1 =
       feature_outputs destination
         (set_sources {| src_raw := lit "// foo"; src_min := lit "foo" |} Demo.foo)
         {| src_raw := lit "// foo"; src_min := lit "foo" |} ∧
     ((writeOutput Demo.ext destination
         (set_sources {| src_raw := lit "// foo"; src_min := lit "foo" |} Demo.foo)).2 = Ok () ↔
      ∀ o, o ∈ feature_outputs destination
                 (set_sources {| src_raw := lit "// foo"; src_min := lit "foo" |} Demo.foo)
                 {| src_raw := lit "// foo"; src_min := lit "foo" |} →
           io_ok Demo.ext o = true)).
Proof.
  apply (writeOutput_outcomes Demo.ext destination
           (set_sources {| src_raw := lit "// foo"; src_min := lit "foo" |} Demo.foo)
           {| src_raw := lit "// foo"; src_min := lit "foo" |}).
  reflexivity.
Defined.

(** ** The run as a whole *)

Lemma path_join_below (directory : list jsstring) (segment : jsstring) :
  segment ≠ lit ".." → ∃ rest, path_join directory segment = directory ++ rest.
Proof.
  intros Hup. unfold path_join. case_bool_decide.
  - exists []. by rewrite app_nil_r.
  - rewrite bool_decide_eq_false_2 by done. by eexists.
Qed.

Lemma writeOutput_paths (ext : Externals) (root : list jsstring) (p : Polyfill)
    (o : output) :
  o ∈ (writeOutput ext root p).1 →
  ∃ rest, output_path o = path_join root (name p) ++ rest.
Proof.
  unfold writeOutput, writeOutput_links.
  intros [Ho | ([] & _ & Ho)]%io_then_output.
  - apply list_elem_of_singleton in Ho as ->. exists []. by rewrite app_nil_r.
  - simpl in Ho. destruct (sources p) as [s|].
    + unfold perform_all in Ho. simpl in Ho.
      repeat (apply elem_of_cons in Ho as [-> | Ho]; [by eexists|]).
      by apply elem_of_nil in Ho.
    + destruct (io_ok ext _); simpl in Ho;
        apply list_elem_of_singleton in Ho as ->; by eexists.
Qed.

(** When no candidate feature has the name [..], whatever a run creates or
    writes lies in [__dist] or below it, and so never is, nor lies inside,
    a directory that discovery returns: the script does not write into the
    feature directories it reads. *)
Theorem run_writes_below_destination (ext : Externals) (fs : list entry) (o : output) :
  (∀ p, p ∈ candidates ext fs → name p ≠ lit "..") →
  o ∈ (run ext fs).1 →
  (∃ rest, output_path o = destination ++ rest) ∧
  ∀ d, d ∈ flattenPolyfillDirectories [] fs → ¬ d `prefix_of` output_path o.
Proof.
  intros Hnames Ho.
  assert (∃ rest, output_path o = destination ++ rest) as [rest Hpath].
  { apply run_outputs in Ho as [-> | [[index ->] | (polyfills & p & Hload & Hp & Ho)]].
    - exists []. by rewrite app_nil_r.
    - by eexists.
    - apply writeOutput_paths in Ho as [rest ->].
      destruct (promise_all_from _ _ _ _ Hload Hp) as (q & Hq & Hbuild).
      apply build_polyfill_keeps in Hbuild as (Hname & _).
      destruct (path_join_below destination (name p)) as [below ->].
      { rewrite Hname. by apply Hnames. }
      exists (below ++ rest). by rewrite <- app_assoc. }
  split; [by exists rest|].
  intros d (p & Hd & Hat & Hok)%flatten_spec [tail Htail]. simpl in Hd. subst p.
  rewrite Hpath in Htail. unfold destination in Htail.
  destruct Hat as [items item children _ | items item children p _ _];
    simpl in Htail; injection Htail as <- _;
    inversion Hok as [|? ? Hnot _]; subst; apply Hnot; by exists (lit "dist").
Qed.

Lemma run_writes_below_destination_witness :
  (∃ rest, output_path (MakeDirectory [lit "__dist"; lit "foo"]) = destination ++ rest) ∧
  ∀ d, d ∈ flattenPolyfillDirectories [] Demo.foo_baz →
       ¬ d `prefix_of` output_path (MakeDirectory [lit "__dist"; lit "foo"]).
Proof.
  apply (run_writes_below_destination Demo.ext Demo.foo_baz
           (MakeDirectory [lit "__dist"; lit "foo"])).
  - intros p Hp. vm_compute in Hp.
    apply elem_of_cons in Hp as [-> | Hp]; [vm_compute; discriminate|].
    apply list_elem_of_singleton in Hp as ->. vm_compute. discriminate.
  - vm_compute. do 2 apply list_elem_of_further. apply list_elem_of_here.
Defined.

(** A directory whose name is two backslashes gets the name [..]: its
    output is written to the source root, the parent of [__dist]. *)
Example name_of_two_backslashes_leaves_destination :
  (run Demo.ext [Demo.feature "\\" "" "var x;"]).1 =
  [MakeDirectory [lit "__dist"];
   WriteAliases [lit "__dist"; lit "aliases.json"] {[ lit "all" := [lit ".."] ]};
   MakeDirectory [];
   WriteMeta [lit "meta.json"]
     (set_size 5
        (set_flags false true true
           (set_baseDir (lit "\\") (set_detectSource [] (Demo.bare None None)))));
   WriteSource [lit "raw.js"] (LF :: lit "// .." ++ LF :: lit "var x;");
   WriteSource [lit "min.js"] (lit "varx;")].
Proof. vm_compute. reflexivity. Qed.

Lemma promise_all_fails {A B} (f : A → result B) (l : list A) (a : A) (e : error) :
  a ∈ l → f a = Err e → ∃ e', promise_all f l = Err e'.
Proof.
  induction l as [|b l IH]; intros Ha Hfa; [by apply elem_of_nil in Ha|]. simpl.
  destruct (f b) as [b'|e'] eqn:Hfb; [|by eauto].
  apply elem_of_cons in Ha as [-> | Ha]; [congruence|].
  destruct (IH Ha Hfa) as [e' ->]. by eauto.
Qed.

(** When the chain of one feature with a config file fails, be it on its
    config, its license or its sources, the run fails and nothing at all is
    created or written, also not for the features that loaded well. *)
Theorem one_failing_feature_fails_the_run (ext : Externals) (fs : list entry)
    (p : Polyfill) (e : error) :
  p ∈ candidates ext fs →
  build_polyfill ext fs p = Err e →
  ∃ e', run ext fs = ([], Err e').
Proof.
  intros Hp Hbuild. unfold run, load_all.
  destruct (promise_all_fails (build_polyfill ext fs) _ p e Hp Hbuild) as [e' ->].
  by exists e'.
Qed.

Lemma one_failing_feature_fails_the_run_witness :
  ∃ e',
    run Demo.ext (Demo.foo_baz ++ [Demo.feature "bad" "license = 'JSON'" "var bad;"])
    = ([], Err e').
Proof.
  eapply (one_failing_feature_fails_the_run Demo.ext
            (Demo.foo_baz ++ [Demo.feature "bad" "license = 'JSON'" "var bad;"])
            (new_Polyfill [lit "bad"] (lit "bad"))).
  - vm_compute. do 2 apply list_elem_of_further. apply list_elem_of_here.
  - vm_compute. reflexivity.
Defined.

Lemma build_polyfill_inv (ext : Externals) (fs : list entry) (p p' : Polyfill) :
  build_polyfill ext fs p = Ok p' →
  ∃ p1 p2 s,
    loadConfig ext fs p = Ok p1 ∧ checkLicense ext p1 = Ok () ∧
    loadSources ext fs p1 = Ok p2 ∧ sources p2 = Some s ∧
    p' = set_config (set_size (length (src_min s)) (config p2)) p2.
Proof.
  unfold build_polyfill.
  destruct (loadConfig ext fs p) as [p1|] eqn:H1; [simpl|done].
  destruct (checkLicense ext p1) as [[]|] eqn:Hl; [simpl|done].
  destruct (loadSources ext fs p1) as [p2|] eqn:H2; [simpl|done].
  unfold updateConfig. destruct (sources p2) as [s|] eqn:Hs; [|done].
  intros [= <-]. by exists p1, p2, s.
Qed.

(** Every feature that a run has loaded, and so every feature it validates
    and writes, has both source variants, a [size] that is the length of
    the minified variant written to [min.js], a config without the key
    [licence], and a license that passes the license check. *)
Theorem loaded_features_are_complete (ext : Externals) (fs : list entry)
    (polyfills : list Polyfill) (p : Polyfill) :
  load_all ext fs = Ok polyfills → p ∈ polyfills →
  ∃ s, sources p = Some s ∧
       size (config p) = Some (length (src_min s)) ∧
       licence (config p) = None ∧
       checkLicense ext p = Ok () ∧
       hasConfigFile fs p = true.
Proof.
  intros Hload Hp.
  destruct (promise_all_from _ _ _ _ Hload Hp) as (q & Hq & Hbuild).
  pose proof (build_polyfill_keeps _ _ _ _ Hbuild) as (_ & Habs & _).
  apply candidates_spec in Hq as (d & _ & Hconfig & ->).
  apply build_polyfill_inv in Hbuild as (p1 & p2 & s & H1 & Hl & H2 & Hs & ->).
  assert (licence (config p1) = None) as Hlicence.
  { apply loadConfig_inv in H1 as (data & c & c' & _ & _ & _ & Hnone & Hdetect & ->).
    apply load_detect_inv in Hdetect
      as [[_ ->] | (_ & text & detect & _ & _ & _ & ->)]; exact Hnone. }
  apply loadSources_keeps in H2 as (_ & Habs2 & _ & Hc).
  apply loadConfig_keeps in H1 as (_ & Habs1 & _).
  exists s. simpl. rewrite Hc. split_and!; [done | done | done | |].
  - revert Hl. unfold checkLicense. done.
  - unfold hasConfigFile, configPath. simpl. by rewrite Habs2, Habs1.
Qed.

Lemma loaded_features_are_complete_witness :
  ∃ polyfills p,
    load_all Demo.ext Demo.foo_baz = Ok polyfills ∧ p ∈ polyfills ∧
    ∃ s, sources p = Some s ∧
         size (config p) = Some (length (src_min s)) ∧
         licence (config p) = None ∧
         checkLicense Demo.ext p = Ok () ∧
         hasConfigFile Demo.foo_baz p = true.
Proof.
  eexists _, _. split; [vm_compute; reflexivity|]. split; [left|].
  eapply (loaded_features_are_complete Demo.ext Demo.foo_baz).
  - vm_compute. reflexivity.
  - left.
Defined.









(** When [__dist] cannot be created the run fails having written nothing;
    when [aliases.json] cannot be written the run fails without having
    created the directory of any feature. *)
Theorem failed_stage_stops_the_run (ext : Externals) (fs : list entry) :
  (io_ok ext (MakeDirectory destination) = false →
     (∃ e, (run ext fs).2 = Err e) ∧
     ∀ o, o ∈ (run ext fs).1 → o = MakeDirectory destination) ∧
  ((∀ index, io_ok ext (WriteAliases (destination ++ [lit "aliases.json"]) index) = false) →
     (∃ e, (run ext fs).2 = Err e) ∧
     ∀ o, o ∈ (run ext fs).1 →
          o = MakeDirectory destination ∨
          ∃ index, o = WriteAliases (destination ++ [lit "aliases.json"]) index).
Proof.
  unfold run. destruct (load_all ext fs) as [polyfills|e]; simpl.
  2: { split; intros _; (split; [by eauto | by intros ? ?%elem_of_nil]). }
  unfold publish, writeAliasFile.
  destruct (checkForCircularDependencies ext polyfills) as [[]|]; simpl.
  2: { split; intros _; (split; [by eauto | by intros ? ?%elem_of_nil]). }
  destruct (checkDependenciesExist polyfills) as [[]|]; simpl.
  2: { split; intros _; (split; [by eauto | by intros ? ?%elem_of_nil]). }
  try unfold perform. simpl. split.
  - intros ->. simpl. split; [by eauto|]. by intros o ->%list_elem_of_singleton.
  - intros Haliases.
    destruct (io_ok ext (MakeDirectory destination)); simpl.
    2: { split; [by eauto|]. intros o ->%list_elem_of_singleton. by left. }
    destruct (alias_index polyfills) as [index|]; simpl.
    2: { split; [by eauto|]. intros o ->%list_elem_of_singleton. by left. }
    try unfold perform. simpl. rewrite Haliases. simpl. split; [by eauto|].
    intros o [-> | ->%list_elem_of_singleton]%elem_of_cons; [by left|].
    right. by exists index.
Qed.

Lemma failed_stage_stops_the_run_witness :
  (∃ e, (run Demo.read_only Demo.foo_baz).2 = Err e) ∧
  ∀ o, o ∈ (run Demo.read_only Demo.foo_baz).1 → o = MakeDirectory destination.
Proof.
  apply (failed_stage_stops_the_run Demo.read_only Demo.foo_baz).
  reflexivity.
Defined.

(** ** Discovery and names, continued *)

Lemma directory_at_prefix (d q : list jsstring) :
  d ≠ [] → ∀ items, directory_at items (d ++ q) → directory_at items d.
Proof.
  induction d as [|item d IH]; intros Hd items Hat; [done|].
  inversion Hat as [? ? children Hin Heq | ? ? children p Hin Hbelow Heq]; subst.
  - destruct d; [|done]. by eapply directory_here.
  - destruct d as [|item' d].
    + by eapply directory_here.
    + eapply directory_below; [done|]. by apply IH.
Qed.

(** Discovery returns no empty path, so never the source root itself, and
    with a directory it returns every directory above it up to the root:
    a directory is only a feature candidate when all its ancestors are. *)
Theorem discovery_is_closed_upwards (fs : list entry) (d q : list jsstring) :
  d ++ q ∈ flattenPolyfillDirectories [] fs →
  d ++ q ≠ [] ∧ (d ≠ [] → d ∈ flattenPolyfillDirectories [] fs).
Proof.
  intros (p & Hp & Hat & Hok)%flatten_spec. simpl in Hp. subst p. split.
  - intros Heq. rewrite Heq in Hat. inversion Hat.
  - intros Hd. apply flatten_spec. exists d. split_and!; [done | |].
    + by eapply directory_at_prefix.
    + by apply Forall_app in Hok as [? _].
Qed.

Lemma discovery_is_closed_upwards_witness :
  [lit "Array"] ++ [lit "from"] ≠ [] ∧
  ([lit "Array"] ≠ [] →
   [lit "Array"] ∈ flattenPolyfillDirectories []
                     [Dir (lit "Array") [Demo.feature "from" "" "var from;"]]).
Proof.
  apply (discovery_is_closed_upwards
           [Dir (lit "Array") [Demo.feature "from" "" "var from;"]]
           [lit "Array"] [lit "from"]).
  apply (bool_decide_unpack _). vm_compute. reflexivity.
Defined.

Lemma replace_separators_app (a b : jsstring) :
  replace_separators (a ++ b) = replace_separators a ++ replace_separators b.
Proof.
  induction a as [|c a IH]; [done|]. simpl. rewrite IH.
  by destruct ((c =? SLASH) || (c =? BACKSLASH)).
Qed.

Lemma relative_join (pl : Platform) (d : list jsstring) :
  relative pl d = join (path_sep pl) d.
Proof.
  induction d as [|c d IH]; [done|]. destruct d as [|c' d]; [done|].
  change (relative pl (c :: c' :: d)) with (c ++ path_sep pl :: relative pl (c' :: d)).
  by rewrite IH.
Qed.

Lemma name_joins_with_dots (pl : Platform) (d : list jsstring) :
  replace_separators (relative pl d) = join DOT (replace_separators <$> d).
Proof.
  induction d as [|c d IH]; [done|]. destruct d as [|c' d]; [done|].
  change (relative pl (c :: c' :: d)) with (c ++ path_sep pl :: relative pl (c' :: d)).
  rewrite replace_separators_app.
  change (replace_separators (path_sep pl :: relative pl (c' :: d)))
    with (if (path_sep pl =? SLASH) || (path_sep pl =? BACKSLASH)
          then DOT :: replace_separators (relative pl (c' :: d))
          else path_sep pl :: replace_separators (relative pl (c' :: d))).
  rewrite IH. by destruct pl.
Qed.

(** The name of a directory is the same on both platforms: it is made of
    the components of the path, each with its slashes and backslashes
    replaced by dots, joined by dots. *)
Theorem name_is_platform_independent (d : list jsstring) :
  name (new_Polyfill d (relative Posix d)) = name (new_Polyfill d (relative Win32 d)) ∧
  ∀ pl, name (new_Polyfill d (relative pl d)) = join DOT (replace_separators <$> d).
Proof.
  simpl. split; [|intros pl; apply name_joins_with_dots].
  by rewrite !name_joins_with_dots.
Qed.

Lemma replace_separators_id (c : jsstring) :
  SLASH ∉ c → BACKSLASH ∉ c → replace_separators c = c.
Proof.
  induction c as [|a c IH]; intros Hs Hb; [done|]. simpl.
  destruct (N.eqb_spec a SLASH) as [->|_]; [by destruct Hs; left|].
  destruct (N.eqb_spec a BACKSLASH) as [->|_]; [by destruct Hb; left|].
  simpl. rewrite IH; [done | |]; intros Hin; [apply Hs | apply Hb]; by right.
Qed.

Lemma split_dots_word (c : jsstring) :
  DOT ∉ c →
  ∀ current,
    split_dots current c = [reverse current ++ c] ∧
    ∀ s, split_dots current (c ++ DOT :: s) = (reverse current ++ c) :: split_dots [] s.
Proof.
  induction c as [|a c IH]; intros Hdot current.
  - simpl. rewrite app_nil_r. done.
  - assert (a ≠ DOT) as Ha by (intros ->; apply Hdot; by left).
    assert (DOT ∉ c) as Hc by (intros Hin; apply Hdot; by right).
    destruct (IH Hc (a :: current)) as [Hend Hmid].
    rewrite reverse_cons, <- app_assoc in Hend, Hmid.
    simpl. destruct (N.eqb_spec a DOT) as [->|_]; [done|]. split; [exact Hend|].
    intros s. apply Hmid.
Qed.

Lemma split_dots_join (d : list jsstring) :
  d ≠ [] → Forall (λ c, DOT ∉ c) d → split_dots [] (join DOT d) = d.
Proof.
  induction d as [|c d IH]; intros Hd Hdots; [done|].
  apply Forall_cons in Hdots as [Hc Hdots].
  destruct (split_dots_word c Hc []) as [Hend Hmid].
  destruct d as [|c' d]; [exact Hend|].
  change (join DOT (c :: c' :: d)) with (c ++ DOT :: join DOT (c' :: d)).
  rewrite Hmid, IH by done. done.
Qed.

(** On directories whose names contain no dot, slash or backslash the name
    can be read back: cutting it at its dots gives the path. Two such
    directories therefore never share a name, nor an output directory. *)
Theorem name_reads_back (pl : Platform) (d : list jsstring) :
  d ≠ [] →
  Forall (λ c, (DOT ∉ c) ∧ (SLASH ∉ c) ∧ (BACKSLASH ∉ c)) d →
  split_dots [] (name (new_Polyfill d (relative pl d))) = d ∧
  ∀ pl' d',
    d' ≠ [] → Forall (λ c, (DOT ∉ c) ∧ (SLASH ∉ c) ∧ (BACKSLASH ∉ c)) d' →
    name (new_Polyfill d' (relative pl' d')) = name (new_Polyfill d (relative pl d)) →
    d' = d.
Proof.
  assert (∀ pl d, d ≠ [] →
            Forall (λ c, (DOT ∉ c) ∧ (SLASH ∉ c) ∧ (BACKSLASH ∉ c)) d →
            split_dots [] (name (new_Polyfill d (relative pl d))) = d) as Hback.
  { clear. intros pl d Hd Hclean. simpl. rewrite name_joins_with_dots.
    replace (replace_separators <$> d) with d.
    - apply split_dots_join; [done|]. eapply Forall_impl; [exact Hclean|]. by intros c [? _].
    - clear Hd. induction Hclean as [|c d (_ & Hs & Hb) _ IH]; [done|].
      by rewrite fmap_cons, <- IH, replace_separators_id. }
  intros Hd Hclean. split; [by apply Hback|].
  intros pl' d' Hd' Hclean' Hname.
  rewrite <- (Hback pl' d' Hd' Hclean'), Hname. by apply Hback.
Qed.

Lemma name_reads_back_witness :
  split_dots []
    (name (new_Polyfill [lit "Array"; lit "from"] (relative Posix [lit "Array"; lit "from"])))
  = [lit "Array"; lit "from"] ∧
  ∀ pl' d',
    d' ≠ [] → Forall (λ c, (DOT ∉ c) ∧ (SLASH ∉ c) ∧ (BACKSLASH ∉ c)) d' →
    name (new_Polyfill d' (relative pl' d'))
    = name (new_Polyfill [lit "Array"; lit "from"]
              (relative Posix [lit "Array"; lit "from"])) →
    d' = [lit "Array"; lit "from"].
Proof.
  apply (name_reads_back Posix [lit "Array"; lit "from"]).
  - discriminate.
  - repeat constructor; apply (bool_decide_unpack _); vm_compute; reflexivity.
Defined.

(** Two different directories with one name: [a.b] and [b] inside [a]. *)
Example names_can_collide :
  name (new_Polyfill [lit "a.b"] (relative Posix [lit "a.b"]))
  = name (new_Polyfill [lit "a"; lit "b"] (relative Posix [lit "a"; lit "b"])).
Proof. vm_compute. reflexivity. Qed.
